(** * Traffic-Forecaster: the ODE-VAE model and its losses ([src/models/vae.py])

    A shallow embedding of [RNNEncoder], [NeuralODEDecoder], [ODEVAE],
    [vae_loss_function] and the SMAPE metrics, together with the part of the
    tensor library they call.

    Conventions of the embedding.
    - A tensor is a shape and its elements in row-major order.
    - Floating-point numbers are idealised as real numbers.  A value that is
      not a finite real (the result of a division by zero, the mean of an
      empty tensor) is [None] in an [option R].
    - A Python exception is a [Raise] in the [result] type.
    - Tensors that a statement writes in place live in a heap and are named
      by locations; the state monad [M] threads the heap.
    - The recurrent cells, the linear layers and the ODE integrator are
      collaborators of the model: they are parameters of the definitions. *)

From Stdlib Require Import String Ascii.
From Stdlib Require Import Reals Lra Lia ZArith Bool List.
Import ListNotations.

Set Implicit Arguments.

(* ================================================================= *)
(** * Part I: definitions *)
(* ================================================================= *)

(** ** Exceptions and results *)

Inductive exn : Type :=
| ValueError (msg : string)
| IndexError
| RuntimeError
| CollaboratorError (tag : nat).

Inductive result (A : Type) : Type :=
| Ok (a : A)
| Raise (e : exn).

Arguments Ok {A} a.
Arguments Raise {A} e.

Definition rbind {A B} (r : result A) (k : A -> result B) : result B :=
  match r with
  | Ok a => k a
  | Raise e => Raise e
  end.

Declare Scope result_scope.
Delimit Scope result_scope with result.
Notation "x <- c ;; k" := (rbind c (fun x => k))
  (at level 61, c at next level, right associativity) : result_scope.
Notation "' p <- c ;; k" := (rbind c (fun x => match x with p => k end))
  (at level 61, p pattern, c at next level, right associativity) : result_scope.

(** ** The tensor library *)

Module Torch.

(** The element used where an index is out of range; no well-formed
    access reaches it. *)
Class Dflt (A : Type) : Type := dflt : A.
#[export] Instance Dflt_R : Dflt R := 0%R.
#[export] Instance Dflt_Z : Dflt Z := 0%Z.
#[export] Instance Dflt_bool : Dflt bool := false.
#[export] Instance Dflt_option {A} : Dflt (option A) := None.

Record tensor (A : Type) : Type := mkTensor {
  shape : list nat;
  data : list A
}.

Definition numel (s : list nat) : nat := fold_right Nat.mul 1%nat s.

(** A tensor is well formed when it has as many elements as its shape
    says. *)
Definition wf {A} (t : tensor A) : Prop :=
  length (data t) = numel (shape t).

(** All the indices of a shape, in row-major order. *)
Fixpoint indices (s : list nat) : list (list nat) :=
  match s with
  | [] => [[]]
  | n :: s' => flat_map (fun i => map (cons i) (indices s')) (seq 0 n)
  end.

(** The offset of an index in the row-major layout. *)
Fixpoint ravel (s idx : list nat) : option nat :=
  match s, idx with
  | [], [] => Some 0%nat
  | n :: s', i :: idx' =>
      if (i <? n)%nat then
        match ravel s' idx' with
        | Some k => Some (i * numel s' + k)%nat
        | None => None
        end
      else None
  | _, _ => None
  end.

Definition valid_idx (s idx : list nat) : Prop := Forall2 lt idx s.

Definition get {A} `{Dflt A} (t : tensor A) (idx : list nat) : A :=
  match ravel (shape t) idx with
  | Some k => nth k (data t) dflt
  | None => dflt
  end.

Definition tabulate {A} (s : list nat) (f : list nat -> A) : tensor A :=
  {| shape := s; data := map f (indices s) |}.

Definition full {A} (s : list nat) (c : A) : tensor A :=
  tabulate s (fun _ => c).

(** A 0-dimensional tensor, [torch.tensor(c)]. *)
Definition scalar {A} (c : A) : tensor A := {| shape := []; data := [c] |}.

(** An elementwise unary operation. *)
Definition tmap {A B} (f : A -> B) (t : tensor A) : tensor B :=
  {| shape := shape t; data := map f (data t) |}.

(** *** Broadcasting *)

(** Shapes are aligned on their last dimension; two sizes are compatible
    when they are equal or one of them is 1. *)
Fixpoint broadcast_rev (a b : list nat) : option (list nat) :=
  match a, b with
  | [], _ => Some b
  | _, [] => Some a
  | x :: a', y :: b' =>
      match broadcast_rev a' b' with
      | Some r =>
          if (x =? y)%nat then Some (x :: r)
          else if (x =? 1)%nat then Some (y :: r)
          else if (y =? 1)%nat then Some (x :: r)
          else None
      | None => None
      end
  end.

Definition broadcast_shapes (a b : list nat) : option (list nat) :=
  option_map (@rev nat) (broadcast_rev (rev a) (rev b)).

(** The index of the element of a tensor of shape [s] that is read at
    index [idx] of the broadcast result. *)
Fixpoint clamp1 (s idx : list nat) : list nat :=
  match s, idx with
  | n :: s', i :: idx' => (if (n =? 1)%nat then 0%nat else i) :: clamp1 s' idx'
  | _, _ => []
  end.

Definition bidx (s idx : list nat) : list nat :=
  clamp1 s (skipn (length idx - length s) idx).

(** A size of an operand is the size of the result or 1. *)
Definition fits (x y : nat) : Prop := x = y \/ x = 1%nat.

Definition bget {A} `{Dflt A} (t : tensor A) (idx : list nat) : A :=
  get t (bidx (shape t) idx).

(** An elementwise binary operation; raises when the shapes cannot be
    broadcast together. *)
Definition tmap2 {A B C} `{Dflt A} `{Dflt B}
    (f : A -> B -> C) (a : tensor A) (b : tensor B) : result (tensor C) :=
  match broadcast_shapes (shape a) (shape b) with
  | Some s => Ok (tabulate s (fun idx => f (bget a idx) (bget b idx)))
  | None => Raise RuntimeError
  end.

(** [torch.where(cond, a, b)]. *)
Definition twhere {A} `{Dflt A}
    (c : tensor bool) (a b : tensor A) : result (tensor A) :=
  match broadcast_shapes (shape c) (shape a) with
  | Some s1 =>
      match broadcast_shapes s1 (shape b) with
      | Some s =>
          Ok (tabulate s (fun idx =>
                if bget c idx then bget a idx else bget b idx))
      | None => Raise RuntimeError
      end
  | None => Raise RuntimeError
  end.

(** *** Arithmetic on real tensors *)

Open Scope R_scope.

Definition tabs : tensor R -> tensor R := tmap Rabs.
Definition texp : tensor R -> tensor R := tmap exp.
Definition tpow (n : nat) : tensor R -> tensor R := tmap (fun v => v ^ n).
Definition tadd : tensor R -> tensor R -> result (tensor R) := tmap2 Rplus.
Definition tsub : tensor R -> tensor R -> result (tensor R) := tmap2 Rminus.
Definition tmul : tensor R -> tensor R -> result (tensor R) := tmap2 Rmult.
Definition tmaximum : tensor R -> tensor R -> result (tensor R) := tmap2 Rmax.
Definition zeros_like (t : tensor R) : tensor R := tmap (fun _ => 0) t.

(** Division of floating-point numbers: dividing by zero gives an
    infinity or a NaN, not an exception. *)
Definition fdiv (x y : R) : option R :=
  if Req_dec_T y 0 then None else Some (x / y).

Definition tdiv : tensor R -> tensor R -> result (tensor (option R)) :=
  tmap2 fdiv.

(** [t == 0]. *)
Definition teq0 : tensor R -> tensor bool :=
  tmap (fun v => if Req_dec_T v 0 then true else false).

(** *** Reductions *)

Definition Rsum (l : list R) : R := fold_right Rplus 0 l.

(** [None] as soon as one element is not a finite real. *)
Fixpoint all_finite (l : list (option R)) : option (list R) :=
  match l with
  | [] => Some []
  | Some v :: l' => option_map (cons v) (all_finite l')
  | None :: _ => None
  end.

(** [torch.mean] over all the elements; the mean of no element is NaN. *)
Definition mean_list (l : list R) : option R :=
  match l with
  | [] => None
  | _ :: _ => Some (Rsum l / INR (length l))
  end.

Definition tmean (t : tensor R) : option R := mean_list (data t).

Definition tmean_fin (t : tensor (option R)) : option R :=
  match all_finite (data t) with
  | Some l => mean_list l
  | None => None
  end.

(** A dimension given the Python way: negative numbers count from the
    last one. *)
Definition norm_dim (d : Z) (rank : nat) : option nat :=
  let d' := (if d <? 0 then d + Z.of_nat rank else d)%Z in
  if ((0 <=? d') && (d' <? Z.of_nat rank))%Z then Some (Z.to_nat d')
  else None.

Definition remove_at {A} (k : nat) (l : list A) : list A :=
  firstn k l ++ skipn (S k) l.

Definition insert_at {A} (k : nat) (x : A) (l : list A) : list A :=
  firstn k l ++ x :: skipn k l.

(** [t.sum(d)].  A 0-dimensional tensor accepts the dimensions 0 and -1
    and is its own sum. *)
Definition tsum_dim (d : Z) (t : tensor R) : result (tensor R) :=
  match shape t with
  | [] => if ((d =? 0) || (d =? -1))%Z then Ok t else Raise IndexError
  | _ :: _ =>
      match norm_dim d (length (shape t)) with
      | Some k =>
          let n := nth k (shape t) 0%nat in
          Ok (tabulate (remove_at k (shape t)) (fun idx =>
                Rsum (map (fun j => get t (insert_at k j idx)) (seq 0 n))))
      | None => Raise IndexError
      end
  end.

(** *** Indexing and slicing *)

(** The bounds of a Python slice [start:stop] on a dimension of size [n]:
    a missing bound is the end of the dimension, a negative one counts from
    the end, and both are clamped to the dimension.  The result is the first
    index and the number of indices. *)
Definition py_bound (n : nat) (b : Z) : nat :=
  let b' := (if b <? 0 then b + Z.of_nat n else b)%Z in
  Z.to_nat (Z.min (Z.max 0 b') (Z.of_nat n)).

Definition py_slice (start stop : option Z) (n : nat) : nat * nat :=
  let lo := match start with Some b => py_bound n b | None => 0%nat end in
  let hi := match stop with Some b => py_bound n b | None => n end in
  (lo, (hi - lo)%nat).

Definition set_nth {A} (k : nat) (x : A) (l : list A) : list A :=
  firstn k l ++ x :: skipn (S k) l.

(** [t.narrow(k, lo, len)]: the sub-tensor of the indices [lo .. lo+len-1]
    of dimension [k]. *)
Definition narrow {A} `{Dflt A} (k lo len : nat) (t : tensor A) : tensor A :=
  tabulate (set_nth k len (shape t))
    (fun idx => get t (set_nth k (nth k idx 0 + lo) idx)%nat).

(** [t[start:stop]], a slice of the first dimension. *)
Definition slice0 {A} `{Dflt A}
    (start stop : option Z) (t : tensor A) : result (tensor A) :=
  match shape t with
  | [] => Raise IndexError
  | n :: _ => let '(lo, len) := py_slice start stop n in Ok (narrow 0 lo len t)
  end.

(** [t[:, start:stop]], a slice of the second dimension. *)
Definition slice1 {A} `{Dflt A}
    (start stop : option Z) (t : tensor A) : result (tensor A) :=
  match shape t with
  | _ :: n :: _ => let '(lo, len) := py_slice start stop n in Ok (narrow 1 lo len t)
  | _ => Raise IndexError
  end.

(** [t.select(k, i)]: the sub-tensor at index [i] of dimension [k], which
    disappears from the shape. *)
Definition tselect {A} `{Dflt A} (k : nat) (i : Z) (t : tensor A)
    : result (tensor A) :=
  if (k <? length (shape t))%nat then
    match norm_dim i (nth k (shape t) 0%nat) with
    | Some j =>
        Ok (tabulate (remove_at k (shape t))
              (fun idx => get t (insert_at k j idx)))
    | None => Raise IndexError
    end
  else Raise IndexError.

(** The value of [t] after [t[start:stop] = v]: [v] is broadcast to the
    shape of the slice. *)
Definition setitem_slice0 {A} `{Dflt A}
    (start stop : option Z) (v t : tensor A) : result (tensor A) :=
  match shape t with
  | [] => Raise IndexError
  | n :: s' =>
      let '(lo, len) := py_slice start stop n in
      match broadcast_shapes (shape v) (len :: s') with
      | Some s =>
          if list_eq_dec Nat.eq_dec s (len :: s') then
            Ok (tabulate (shape t) (fun idx =>
                  match idx with
                  | i :: r =>
                      if ((lo <=? i) && (i <? lo + len))%nat
                      then bget v ((i - lo)%nat :: r)
                      else get t idx
                  | [] => get t idx
                  end))
          else Raise RuntimeError
      | None => Raise RuntimeError
      end
  end.

(** The value of [t] after [t[i] = c] for a number [c]. *)
Definition setitem_fill0 {A} `{Dflt A}
    (i : Z) (c : A) (t : tensor A) : result (tensor A) :=
  match shape t with
  | [] => Raise IndexError
  | n :: _ =>
      match norm_dim i n with
      | Some j =>
          Ok (tabulate (shape t) (fun idx =>
                match idx with
                | i' :: _ => if (i' =? j)%nat then c else get t idx
                | [] => get t idx
                end))
      | None => Raise IndexError
      end
  end.

Definition last_dim (s : list nat) : nat := last s 0%nat.

(** [torch.cat((a, b), dim=-1)]: the shapes agree on every dimension but
    the last; an empty 1-dimensional tensor is skipped. *)
Definition cat_last {A} `{Dflt A} (a b : tensor A) : result (tensor A) :=
  match shape a, shape b with
  | [], _ | _, [] => Raise RuntimeError
  | [0%nat], _ :: _ => Ok b
  | _ :: _, [0%nat] => Ok a
  | _ :: _, _ :: _ =>
      if list_eq_dec Nat.eq_dec (removelast (shape a)) (removelast (shape b))
      then
        let na := last_dim (shape a) in
        Ok (tabulate (removelast (shape a) ++ [na + last_dim (shape b)])%nat
              (fun idx =>
                 let j := last idx 0%nat in
                 if (j <? na)%nat then get a idx
                 else get b (removelast idx ++ [j - na])%nat))
      else Raise RuntimeError
  end.

(** [t.flip((0,))]: the first dimension in reverse order, in a new tensor. *)
Definition flip0 {A} `{Dflt A} (t : tensor A) : result (tensor A) :=
  match shape t with
  | [] => Raise IndexError
  | n :: _ =>
      Ok (tabulate (shape t) (fun idx =>
            match idx with
            | i :: r => get t ((n - 1 - i)%nat :: r)
            | [] => get t idx
            end))
  end.

(** [torch.unsqueeze(t, k)]. *)
Definition unsqueeze {A} (k : nat) (t : tensor A) : result (tensor A) :=
  if (k <=? length (shape t))%nat
  then Ok {| shape := insert_at k 1%nat (shape t); data := data t |}
  else Raise IndexError.

(** [torch.permute(t, p)]: dimension [i] of the result is dimension
    [p[i]] of [t]. *)
Definition is_perm (p : list nat) (n : nat) : bool :=
  (length p =? n)%nat &&
  forallb (fun i => existsb (Nat.eqb i) p) (seq 0 n).

Definition index_of (i : nat) (p : list nat) : nat :=
  (fix go (p : list nat) (k : nat) : nat :=
     match p with
     | [] => k
     | j :: p' => if (j =? i)%nat then k else go p' (S k)
     end) p 0%nat.

Definition permute {A} `{Dflt A} (p : list nat) (t : tensor A)
    : result (tensor A) :=
  if is_perm p (length (shape t)) then
    Ok (tabulate (map (fun i => nth i (shape t) 0%nat) p)
          (fun idx =>
             get t (map (fun i => nth (index_of i p) idx 0%nat)
                        (seq 0 (length (shape t))))))
  else Raise RuntimeError.

(** *** 32-bit integer tensors *)

Open Scope Z_scope.

Definition int32_min : Z := - 2 ^ 31.
Definition int32_max : Z := 2 ^ 31 - 1.

(** Arithmetic on [torch.int32] wraps around. *)
Definition wrap32 (z : Z) : Z := (z + 2 ^ 31) mod 2 ^ 32 - 2 ^ 31.

Definition isub (a b : Z) : Z := wrap32 (a - b).
Definition iabs (a : Z) : Z := wrap32 (Z.abs a).

(** [torch.round]: to the nearest integer, a half to the even one. *)
Definition round_half_even (r : R) : Z :=
  let f := Zfloor r in
  let d := (r - IZR f)%R in
  if Rlt_dec d (1 / 2) then f
  else if Rlt_dec (1 / 2) d then f + 1
  else if Z.even f then f else f + 1.

Definition tround : tensor R -> tensor R :=
  tmap (fun v => IZR (round_half_even v)).

(** The conversion of a float to [int32] truncates toward zero.  A value
    outside the range of [int32] has no defined conversion; the x86-64
    conversion instruction gives the least [int32] there. *)
Definition trunc (r : R) : Z :=
  if Rle_dec 0 r then Zfloor r else Zceil r.

Definition to_int32 (r : R) : Z :=
  let z := trunc r in
  if (int32_min <=? z) && (z <=? int32_max) then z else int32_min.

Definition to_IntTensor : tensor R -> tensor Z := tmap to_int32.

Definition tisub : tensor Z -> tensor Z -> result (tensor Z) := tmap2 isub.
Definition tiabs : tensor Z -> tensor Z := tmap iabs.

(** An integer tensor divided by a float tensor: the integers are converted
    to floats first. *)
Definition tdiv_int (a : tensor Z) (b : tensor R)
    : result (tensor (option R)) :=
  tmap2 (fun z y => fdiv (IZR z) y) a b.

Close Scope Z_scope.

End Torch.

Import Torch.

(** ** The heap of tensors *)

Definition loc : Type := nat.
Definition heap : Type := list (tensor R).

(** A computation reads and writes the heap and returns or raises; the heap
    survives an exception. *)
Definition M (A : Type) : Type := heap -> result A * heap.

Definition ret {A} (a : A) : M A := fun h => (Ok a, h).

Definition bind {A B} (m : M A) (k : A -> M B) : M B :=
  fun h =>
    match m h with
    | (Ok a, h') => k a h'
    | (Raise e, h') => (Raise e, h')
    end.

Definition lift {A} (r : result A) : M A := fun h => (r, h).

Declare Scope heap_scope.
Delimit Scope heap_scope with heap.
Notation "x <- c ;; k" := (bind c (fun x => k))
  (at level 61, c at next level, right associativity) : heap_scope.
Notation "' p <- c ;; k" := (bind c (fun x => match x with p => k end))
  (at level 61, p pattern, c at next level, right associativity) : heap_scope.

(** A Python reference always names a live object; a location outside the
    heap has no counterpart in the program. *)
Definition read (l : loc) : M (tensor R) :=
  fun h =>
    match nth_error h l with
    | Some v => (Ok v, h)
    | None => (Raise RuntimeError, h)
    end.

Definition write (l : loc) (v : tensor R) : M unit :=
  fun h =>
    match nth_error h l with
    | Some _ => (Ok tt, firstn l h ++ v :: skipn (S l) h)
    | None => (Raise RuntimeError, h)
    end.

Definition alloc (v : tensor R) : M loc :=
  fun h => (Ok (length h), h ++ [v]).

(** [t.clone()]: a new tensor with the elements of [t]. *)
Definition clone (t : loc) : M loc :=
  (v <- read t ;; alloc v)%heap.

(** [t[start:stop]] is a view of [t]; here it is read at once. *)
Definition getitem_slice0 (t : loc) (start stop : option Z) : M (tensor R) :=
  (v <- read t ;; lift (slice0 start stop v))%heap.

(** [t[start:stop] = v], in place. *)
Definition setitem_slice (t : loc) (start stop : option Z) (v : tensor R)
    : M unit :=
  (old <- read t ;;
   new <- lift (setitem_slice0 start stop v old) ;;
   write t new)%heap.

(** [t[i] = c], in place. *)
Definition setitem_fill (t : loc) (i : Z) (c : R) : M unit :=
  (old <- read t ;;
   new <- lift (setitem_fill0 i c old) ;;
   write t new)%heap.

(** A computation that leaves the heap as it found it. *)
Definition reads_only {A} (m : M A) : Prop := forall h, snd (m h) = h.

(** ** The model of [vae.py] *)

Open Scope string_scope.

(** How Python prints a list of plain strings: ['gru', 'grud']. *)
Definition py_repr_str (s : string) : string := "'" ++ s ++ "'".

Definition py_repr_list (l : list string) : string :=
  "[" ++ String.concat ", " (map py_repr_str l) ++ "]".

(** ["Invalid encoder! Encoder specified: {}, Allowed Encoders: {}".format(encoder, allowed)] *)
Definition invalid_encoder_msg (encoder : string) (allowed : list string)
    : string :=
  "Invalid encoder! Encoder specified: " ++ encoder
  ++ ", Allowed Encoders: " ++ py_repr_list allowed.

(** [p in s] on Python strings. *)
Fixpoint contains (p s : string) : bool :=
  String.prefix p s ||
  match s with
  | EmptyString => false
  | String _ s' => contains p s'
  end.

(** The placement handle that the losses take and pass on. *)
Inductive device : Type := cpu | cuda (index : nat).

Section Model.

(** The collaborators: network modules with learned parameters.
    [nn.GRU], [GRUD_cell], [nn.Linear] and [NeuralODE(ODEFunc(...))]
    construct them; calling one is a function of its argument.  The
    encoder passes them tensors that it has just built, so nothing they
    could do to an argument reaches a tensor of the caller. *)
Variable NNModule : Type.
Variable nn_GRU : Z -> Z -> result NNModule.
Variable GRUD_cell : Z -> Z -> result NNModule.
Variable nn_Linear : Z -> Z -> result NNModule.
Variable NeuralODE : Z -> Z -> result NNModule.
Variable call_rnn : NNModule -> tensor R -> result (tensor R * tensor R).
Variable call_gru_d : NNModule -> tensor R -> result (tensor R * tensor R).
Variable call_linear : NNModule -> tensor R -> result (tensor R).
Variable call_ode : NNModule -> tensor R -> tensor R -> result (tensor R).

(** *** [class RNNEncoder] *)

Record RNNEncoder : Type := mkRNNEncoder {
  enc_input_dim : Z;
  enc_hidden_dim : Z;
  enc_latent_dim : Z;
  enc_encoder : string;
  allowed_encoders : list string;
  enc_rnn : NNModule;
  hid2lat : NNModule
}.

(** [RNNEncoder.__init__] *)
Definition RNNEncoder_init (input_dim hidden_dim latent_dim : Z)
    (encoder : string) : result RNNEncoder :=
  (let allowed := ["gru"; "grud"] in
   rnn <- (if encoder =? "gru" then nn_GRU (input_dim + 1) hidden_dim
           else if encoder =? "grud" then GRUD_cell input_dim hidden_dim
           else Raise (ValueError (invalid_encoder_msg encoder allowed))) ;;
   h2l <- nn_Linear hidden_dim (2 * latent_dim) ;;
   Ok {| enc_input_dim := input_dim;
         enc_hidden_dim := hidden_dim;
         enc_latent_dim := latent_dim;
         enc_encoder := encoder;
         allowed_encoders := allowed;
         enc_rnn := rnn;
         hid2lat := h2l |})%result.

(** The first lines of [RNNEncoder.forward]: the clone of the time tensor
    and its rewriting in place into offsets.
<<
        t = t.clone()
        t[1:] = t[:-1] - t[1:]
        t[0] = 0.
>> *)
Definition time_offsets (t : loc) : M loc :=
  (t <- clone t ;;
   a <- getitem_slice0 t None (Some (-1)%Z) ;;
   b <- getitem_slice0 t (Some 1%Z) None ;;
   d <- lift (tsub a b) ;;
   _ <- setitem_slice t (Some 1%Z) None d ;;
   _ <- setitem_fill t 0 0%R ;;
   ret t)%heap.

(** [h0[:, -1, :]] *)
Definition getitem_c_last_c (h0 : tensor R) : result (tensor R) :=
  if (3 <=? length (shape h0))%nat then tselect 1 (-1) h0
  else Raise IndexError.

(** [RNNEncoder.forward]; the cast [.float()] is the identity on reals. *)
Definition RNNEncoder_forward (self : RNNEncoder) (x t : loc)
    : M (tensor R * tensor R) :=
  (t <- time_offsets t ;;
   xv <- read x ;;
   tv <- read t ;;
   xt <- lift (cat_last xv tv) ;;
   h0 <- lift
     (if enc_encoder self =? "gru" then
        (f <- flip0 xt ;;
         '(_, h0) <- call_rnn (enc_rnn self) f ;;
         Ok h0)%result
      else if enc_encoder self =? "grud" then
        (f <- flip0 xt ;;
         '(_, h0) <- call_gru_d (enc_rnn self) f ;;
         s <- getitem_c_last_c h0 ;;
         u <- unsqueeze 1 s ;;
         permute [1; 0; 2]%nat u)%result
      else
        Raise (ValueError
                 (invalid_encoder_msg (enc_encoder self)
                    (allowed_encoders self)))) ;;
   h00 <- lift (tselect 0 0 h0) ;;
   z0 <- lift (call_linear (hid2lat self) h00) ;;
   mu <- lift (slice1 None (Some (enc_latent_dim self)) z0) ;;
   logvar <- lift (slice1 (Some (enc_latent_dim self)) None z0) ;;
   ret (mu, logvar))%heap.

(** The offsets that [time_offsets] leaves in the clone of a time tensor
    [old] of shape [n :: s] with [n >= 1] ([time_offsets_run]). *)
Definition offsets_value (old : tensor R) (n : nat) (s : list nat)
    : tensor R :=
  tabulate (n :: s) (fun idx =>
    match idx with
    | i :: r =>
        if (i =? 0)%nat then 0%R
        else (get old ((i - 1)%nat :: r) - get old (i :: r))%R
    | [] => 0%R
    end).

(** What [RNNEncoder.forward] computes once the time offsets are written:
    a function of the value [xv] of the observations and of the value [tv]
    of the rewritten clone ([RNNEncoder_forward_values] relates the two). *)
Definition encode_values (self : RNNEncoder) (xv tv : tensor R)
    : result (tensor R * tensor R) :=
  (xt <- cat_last xv tv ;;
   h0 <- (if enc_encoder self =? "gru" then
            (f <- flip0 xt ;;
             '(_, h0) <- call_rnn (enc_rnn self) f ;;
             Ok h0)
          else if enc_encoder self =? "grud" then
            (f <- flip0 xt ;;
             '(_, h0) <- call_gru_d (enc_rnn self) f ;;
             s <- getitem_c_last_c h0 ;;
             u <- unsqueeze 1 s ;;
             permute [1; 0; 2]%nat u)
          else
            Raise (ValueError
                     (invalid_encoder_msg (enc_encoder self)
                        (allowed_encoders self)))) ;;
   h00 <- tselect 0 0 h0 ;;
   z0 <- call_linear (hid2lat self) h00 ;;
   mu <- slice1 None (Some (enc_latent_dim self)) z0 ;;
   logvar <- slice1 (Some (enc_latent_dim self)) None z0 ;;
   Ok (mu, logvar))%result.

(** *** [class NeuralODEDecoder] *)

Record NeuralODEDecoder : Type := mkNeuralODEDecoder {
  dec_output_dim : Z;
  dec_hidden_dim : Z;
  dec_latent_dim : Z;
  ode : NNModule;
  l2h : NNModule;
  h2o : NNModule
}.

(** [NeuralODEDecoder.__init__] *)
Definition NeuralODEDecoder_init (output_dim hidden_dim latent_dim : Z)
    : result NeuralODEDecoder :=
  (o <- NeuralODE latent_dim hidden_dim ;;
   l <- nn_Linear latent_dim hidden_dim ;;
   h <- nn_Linear hidden_dim output_dim ;;
   Ok {| dec_output_dim := output_dim;
         dec_hidden_dim := hidden_dim;
         dec_latent_dim := latent_dim;
         ode := o; l2h := l; h2o := h |})%result.

(** [t[:, 0, 0]] *)
Definition getitem_c_0_0 (t : tensor R) : result (tensor R) :=
  (s <- tselect 1 0 t ;; tselect 1 0 s)%result.

(** [NeuralODEDecoder.forward] *)
Definition NeuralODEDecoder_forward (self : NeuralODEDecoder)
    (z0 : tensor R) (t : loc) : M (tensor R) :=
  (tv <- read t ;;
   t_1d <- lift (getitem_c_0_0 tv) ;;
   zs <- lift (call_ode (ode self) z0 t_1d) ;;
   hs <- lift (call_linear (l2h self) zs) ;;
   xs <- lift (call_linear (h2o self) hs) ;;
   ret xs)%heap.

(** *** [class ODEVAE] *)

Record ODEVAE : Type := mkODEVAE {
  vae_output_dim : Z;
  vae_hidden_dim : Z;
  vae_latent_dim : Z;
  vae_encoder : string;
  rnn_encoder : RNNEncoder;
  neural_decoder : NeuralODEDecoder
}.

(** [ODEVAE.__init__] *)
Definition ODEVAE_init (output_dim hidden_dim latent_dim : Z)
    (encoder : string) : result ODEVAE :=
  (e <- RNNEncoder_init output_dim hidden_dim latent_dim encoder ;;
   d <- NeuralODEDecoder_init output_dim hidden_dim latent_dim ;;
   Ok {| vae_output_dim := output_dim;
         vae_hidden_dim := hidden_dim;
         vae_latent_dim := latent_dim;
         vae_encoder := encoder;
         rnn_encoder := e;
         neural_decoder := d |})%result.

(** Modelled from the spec: [reparameterize] of [helpers/utils.py], which
    is not among the sources.  The sampler returns
    [mu + exp(0.5 * logvar) * noise], where [noise] is the standard normal
    draw of this call. *)
Definition reparameterize (noise mu logvar : tensor R) : result (tensor R) :=
  (sn <- tmul (texp (tmap (Rmult 0.5) logvar)) noise ;;
   tadd mu sn)%result.

(** [ODEVAE.forward]; [noise] is what the sampler draws when it is called. *)
Definition ODEVAE_forward (self : ODEVAE) (noise : tensor R)
    (x t_encoder t_decoder : loc) (MAP : bool)
    : M (tensor R * tensor R * tensor R * tensor R) :=
  ('(mu, logvar) <- RNNEncoder_forward (rnn_encoder self) x t_encoder ;;
   z <- (if MAP then ret mu else lift (reparameterize noise mu logvar)) ;;
   x_p <- NeuralODEDecoder_forward (neural_decoder self) z t_decoder ;;
   ret (x_p, z, mu, logvar))%heap.

End Model.

(** *** The losses *)

Open Scope R_scope.

(** [vae_loss_function] *)
Definition vae_loss_function (dev : device)
    (x_p x z mu logvar : tensor R) : result (option R) :=
  (d <- tsub x x_p ;;
   s1 <- tsum_dim (-1) (tpow 2 d) ;;
   s0 <- tsum_dim 0 s1 ;;
   let reconstruction_loss := tmap (Rmult 0.5) s0 in
   a <- tsub (tmap (Rplus 1) logvar) (tpow 2 mu) ;;
   b <- tsub a (texp logvar) ;;
   k <- tsum_dim (-1) b ;;
   let kl_loss := tmap (Rmult (-0.5)) k in
   loss <- tadd reconstruction_loss kl_loss ;;
   Ok (tmean loss))%result.

(** [differentiable_smape]; [epsilon] is 0.1 when the caller gives none. *)
Definition smape_denominator (y_true y_pred : tensor R) (epsilon : R)
    : result (tensor R) :=
  (let constant_and_epsilon := full (shape y_true) (0.5 + epsilon) in
   s <- tadd (tabs y_true) (tabs y_pred) ;;
   tmaximum (tmap (fun v => v + epsilon) s) constant_and_epsilon)%result.

Definition differentiable_smape (dev : device)
    (y_true y_pred : tensor R) (epsilon : R) : result (option R) :=
  (summ <- smape_denominator y_true y_pred epsilon ;;
   d <- tsub y_pred y_true ;;
   q <- tdiv (tabs d) summ ;;
   let smape := tmap (option_map (fun v => v * 2)) q in
   Ok (tmean_fin smape))%result.

(** [rounded_smape] *)
Definition rounded_smape (dev : device)
    (y_true y_pred : tensor R) : result (option R) :=
  (let y_true_copy := to_IntTensor (tround y_true) in
   let y_pred_copy := to_IntTensor (tround y_pred) in
   summ <- tadd (tabs y_true) (tabs y_pred) ;;
   d <- tisub y_pred_copy y_true_copy ;;
   q <- tdiv_int (tiabs d) summ ;;
   smape <- twhere (teq0 summ) (tmap Some (zeros_like summ)) q ;;
   Ok (tmean_fin smape))%result.

(** [kaggle_smape] *)
Definition kaggle_smape (dev : device)
    (y_true y_pred : tensor R) : result (option R) :=
  (summ <- tadd (tabs y_true) (tabs y_pred) ;;
   d <- tsub y_pred y_true ;;
   q <- tdiv (tabs d) summ ;;
   smape <- twhere (teq0 summ) (tmap Some (zeros_like summ)) q ;;
   Ok (option_map (Rmult 200) (tmean_fin smape)))%result.

(** [mape]: the division is not guarded, a zero target gives an infinity
    or a NaN. *)
Definition mape (dev : device) (y_true y_pred : tensor R)
    : result (option R) :=
  (d <- tsub y_pred y_true ;;
   q <- tdiv (tabs d) y_true ;;
   Ok (option_map (fun v => v * 100) (tmean_fin q)))%result.

(** [torch.log1p]: finite above -1, minus infinity at -1 and NaN below. *)
Definition flog1p (x : R) : option R :=
  if Rlt_dec (-1) x then Some (ln (1 + x)) else None.

(** An operation on floats one of which may not be finite: the difference,
    the absolute value, the square of a value that is not finite and its
    product with a real are not finite either. *)
Definition olift2 (f : R -> R -> R) (a b : option R) : option R :=
  match a, b with
  | Some x, Some y => Some (f x y)
  | _, _ => None
  end.

Definition oscale (a : option R) (m : R) : option R :=
  option_map (fun v => v * m) a.

(** [mae]; [mult_factor] is a tensor, the number 1 of the default being the
    0-dimensional [scalar 1]. *)
Definition mae (dev : device) (y_true y_pred mult_factor : tensor R)
    : result (option R) :=
  (let y_true_log := tmap flog1p y_true in
   let y_pred_log := tmap flog1p y_pred in
   d <- tmap2 (olift2 Rminus) y_true_log y_pred_log ;;
   error <- tmap2 oscale (tmap (option_map Rabs) d) mult_factor ;;
   Ok (tmean_fin error))%result.

(** [mse] *)
Definition mse (dev : device) (y_true y_pred mult_factor : tensor R)
    : result (option R) :=
  (let y_true_log := tmap flog1p y_true in
   let y_pred_log := tmap flog1p y_pred in
   d <- tmap2 (olift2 Rminus) y_true_log y_pred_log ;;
   error <- tmap2 oscale (tmap (option_map (fun v => v ^ 2)) d) mult_factor ;;
   Ok (tmean_fin error))%result.

(** The symmetric error of one pair of elements as a real number, and the
    smoothed one of [differentiable_smape]. *)
Definition smape_ratio (a b : R) : R :=
  if Req_dec_T (Rabs a + Rabs b) 0 then 0
  else Rabs (b - a) / (Rabs a + Rabs b).

Definition smooth_ratio (epsilon a b : R) : R :=
  Rabs (b - a) / Rmax (Rabs a + Rabs b + epsilon) (0.5 + epsilon) * 2.

(** The contribution of one pair of elements to [mape] and, for a
    multiplicative factor [m], to [mae] and [mse]. *)
Definition mape_term (a b : R) : option R := fdiv (Rabs (b - a)) a.

Definition mae_term (m a b : R) : option R :=
  oscale (option_map Rabs (olift2 Rminus (flog1p a) (flog1p b))) m.

Definition mse_term (m a b : R) : option R :=
  oscale (option_map (fun v => v ^ 2) (olift2 Rminus (flog1p a) (flog1p b))) m.

(** The variational loss in the words of the specification, for an
    observation of shape (T, B, F) and latent parameters of shape (B, L):
    for each batch element, half the squared error summed over the feature
    axis then over the time axis, plus -0.5 times the sum over the latent
    dimensions of [1 + logvar - mu^2 - exp(logvar)]; then the mean over the
    batch. *)
Definition vae_loss_spec (T B F L : nat)
    (x_hat x mu logvar : tensor R) : option R :=
  mean_list
    (map (fun b =>
            0.5 * Rsum (map (fun t =>
                     Rsum (map (fun f =>
                             (get x [t; b; f] - get x_hat [t; b; f]) ^ 2)
                          (seq 0 F)))
                   (seq 0 T))
            + (-0.5) * Rsum (map (fun l =>
                          1 + get logvar [b; l] - get mu [b; l] ^ 2
                          - exp (get logvar [b; l]))
                        (seq 0 L)))
         (seq 0 B)).

(** The contribution of one pair of elements to [kaggle_smape] and to
    [rounded_smape], before the mean. *)
Definition kaggle_term (a b : R) : option R :=
  if Req_dec_T (Rabs a + Rabs b) 0 then Some 0
  else fdiv (Rabs (b - a)) (Rabs a + Rabs b).

Definition rounded_term (a b : R) : option R :=
  if Req_dec_T (Rabs a + Rabs b) 0 then Some 0
  else fdiv (IZR (iabs (isub (to_int32 (IZR (round_half_even b)))
                             (to_int32 (IZR (round_half_even a))))))
            (Rabs a + Rabs b).

(* ================================================================= *)
(** * Part II: properties *)
(* ================================================================= *)

Close Scope string_scope.
Open Scope list_scope.
Open Scope R_scope.

(** ** Indices and the row-major layout *)

Section Layout.

Context {A : Type}.

Lemma length_flat_map_const (g : nat -> list A) (m : nat) (l : list nat) :
  (forall j, length (g j) = m) ->
  length (flat_map g l) = (length l * m)%nat.
Proof.
  intros Hg. induction l as [|j l IH]; simpl.
  - reflexivity.
  - rewrite length_app, Hg, IH. reflexivity.
Qed.

Lemma nth_error_flat_map_seq (g : nat -> list A) (m n : nat) :
  (forall j, length (g j) = m) ->
  forall start i r,
    (i < n)%nat -> (r < m)%nat ->
    nth_error (flat_map g (seq start n)) (i * m + r)
    = nth_error (g (start + i)%nat) r.
Proof.
  intros Hg. induction n as [|n IH]; intros start i r Hi Hr.
  - lia.
  - simpl. destruct i as [|i].
    + simpl. rewrite nth_error_app1 by (rewrite Hg; exact Hr).
      rewrite Nat.add_0_r. reflexivity.
    + rewrite nth_error_app2 by (rewrite Hg; simpl; lia).
      rewrite Hg.
      replace (S i * m + r - m)%nat with (i * m + r)%nat by (simpl; lia).
      rewrite IH by lia.
      replace (S start + i)%nat with (start + S i)%nat by lia.
      reflexivity.
Qed.

End Layout.

Lemma length_indices (s : list nat) : length (indices s) = numel s.
Proof.
  induction s as [|n s IH]; simpl.
  - reflexivity.
  - rewrite length_flat_map_const with (m := numel s).
    + rewrite length_seq. reflexivity.
    + intros j. rewrite length_map. exact IH.
Qed.

Lemma ravel_lt (s idx : list nat) (k : nat) :
  ravel s idx = Some k -> (k < numel s)%nat.
Proof.
  revert idx k. induction s as [|n s IH]; intros [|i idx] k; simpl; try discriminate.
  - intros [= <-]. lia.
  - destruct (Nat.ltb_spec i n) as [Hi|]; [|discriminate].
    destruct (ravel s idx) as [k'|] eqn:E; [|discriminate].
    intros [= <-]. specialize (IH _ _ E). nia.
Qed.

Lemma ravel_valid (s idx : list nat) :
  valid_idx s idx -> exists k, ravel s idx = Some k.
Proof.
  unfold valid_idx. intros H. induction H as [|i n idx s Hi _ [k IH]]; simpl.
  - eauto.
  - apply Nat.ltb_lt in Hi. rewrite Hi, IH. eauto.
Qed.

Lemma ravel_Some_valid (s idx : list nat) (k : nat) :
  ravel s idx = Some k -> valid_idx s idx.
Proof.
  unfold valid_idx.
  revert idx k. induction s as [|n s IH]; intros [|i idx] k; simpl; try discriminate.
  - constructor.
  - destruct (Nat.ltb_spec i n) as [Hi|]; [|discriminate].
    destruct (ravel s idx) as [k'|] eqn:E; [|discriminate].
    intros _. constructor; eauto.
Qed.

Lemma nth_error_indices (s idx : list nat) (k : nat) :
  ravel s idx = Some k -> nth_error (indices s) k = Some idx.
Proof.
  revert idx k. induction s as [|n s IH]; intros [|i idx] k; simpl; try discriminate.
  - intros [= <-]. reflexivity.
  - destruct (Nat.ltb_spec i n) as [Hi|]; [|discriminate].
    destruct (ravel s idx) as [k'|] eqn:E; [|discriminate].
    intros [= <-].
    rewrite nth_error_flat_map_seq with (m := numel s).
    + simpl. rewrite nth_error_map, (IH _ _ E). reflexivity.
    + intros j. rewrite length_map. apply length_indices.
    + exact Hi.
    + eapply ravel_lt; eassumption.
Qed.

Lemma In_indices (s idx : list nat) :
  In idx (indices s) -> valid_idx s idx.
Proof.
  unfold valid_idx. revert idx. induction s as [|n s IH]; intros idx; simpl.
  - intros [<-|[]]. constructor.
  - rewrite in_flat_map. intros (i & Hi & Hin).
    apply in_map_iff in Hin. destruct Hin as (r & <- & Hr).
    apply in_seq in Hi. constructor; [lia | auto].
Qed.

Lemma valid_In_indices (s idx : list nat) :
  valid_idx s idx -> In idx (indices s).
Proof.
  intros H. destruct (ravel_valid H) as [k Hk].
  eapply nth_error_In. apply nth_error_indices. eassumption.
Qed.

(** ** Reading a tabulated tensor *)

Lemma wf_tabulate {A} (s : list nat) (f : list nat -> A) : wf (tabulate s f).
Proof. unfold wf, tabulate; simpl. rewrite length_map. apply length_indices. Qed.

Lemma wf_tmap {A B} (f : A -> B) (t : tensor A) : wf t -> wf (tmap f t).
Proof. unfold wf, tmap; simpl. rewrite length_map. auto. Qed.

Lemma get_tabulate {A} `{Dflt A} (s idx : list nat) (f : list nat -> A) :
  valid_idx s idx -> get (tabulate s f) idx = f idx.
Proof.
  intros Hv. destruct (ravel_valid Hv) as [k Hk].
  unfold get, tabulate; simpl. rewrite Hk.
  apply nth_error_nth. rewrite nth_error_map, (nth_error_indices _ _ Hk).
  reflexivity.
Qed.

Lemma get_tmap {A B} `{Dflt A} `{Dflt B} (f : A -> B) (t : tensor A) idx :
  wf t -> valid_idx (shape t) idx -> get (tmap f t) idx = f (get t idx).
Proof.
  intros Hwf Hv. destruct (ravel_valid Hv) as [k Hk].
  unfold get, tmap; simpl. rewrite Hk.
  assert (Hlt : (k < length (data t))%nat) by (rewrite Hwf; eapply ravel_lt; eauto).
  rewrite nth_indep with (d' := f dflt) by (rewrite length_map; exact Hlt).
  apply map_nth.
Qed.

(** ** Broadcasting *)

Lemma broadcast_rev_refl (a : list nat) : broadcast_rev a a = Some a.
Proof.
  induction a as [|x a IH]; simpl.
  - reflexivity.
  - rewrite IH, Nat.eqb_refl. reflexivity.
Qed.

Lemma broadcast_shapes_refl (s : list nat) : broadcast_shapes s s = Some s.
Proof.
  unfold broadcast_shapes. rewrite broadcast_rev_refl. simpl.
  rewrite rev_involutive. reflexivity.
Qed.

Lemma broadcast_rev_sym (a b : list nat) :
  broadcast_rev a b = broadcast_rev b a.
Proof.
  revert b. induction a as [|x a IH]; intros [|y b]; simpl; try reflexivity.
  rewrite IH. destruct (broadcast_rev b a); [|reflexivity].
  destruct (Nat.eqb_spec x y) as [->|Hxy].
  - rewrite Nat.eqb_refl. reflexivity.
  - destruct (Nat.eqb_spec y x) as [->|_]; [congruence|].
    destruct (Nat.eqb_spec x 1) as [->|Hx], (Nat.eqb_spec y 1) as [->|Hy];
      congruence.
Qed.

Lemma broadcast_shapes_sym (a b : list nat) :
  broadcast_shapes a b = broadcast_shapes b a.
Proof. unfold broadcast_shapes. rewrite broadcast_rev_sym. reflexivity. Qed.

Lemma broadcast_rev_absorb (a b s : list nat) :
  broadcast_rev a b = Some s -> broadcast_rev s a = Some s.
Proof.
  revert b s. induction a as [|x a IH]; intros [|y b] s; simpl.
  - intros [= <-]. reflexivity.
  - intros [= <-]. reflexivity.
  - intros [= <-]. apply (broadcast_rev_refl (x :: a)).
  - destruct (broadcast_rev a b) as [r|] eqn:E; [|discriminate].
    specialize (IH _ _ E).
    destruct (Nat.eqb_spec x y) as [->|Hxy].
    { intros [= <-]. simpl. rewrite IH, Nat.eqb_refl. reflexivity. }
    destruct (Nat.eqb_spec x 1) as [->|Hx].
    { intros [= <-]. simpl. rewrite IH.
      destruct (Nat.eqb_spec y 1); [congruence|]. reflexivity. }
    destruct (Nat.eqb_spec y 1) as [->|Hy]; [|discriminate].
    intros [= <-]. simpl. rewrite IH, Nat.eqb_refl. reflexivity.
Qed.

Lemma broadcast_shapes_absorb (a b s : list nat) :
  broadcast_shapes a b = Some s -> broadcast_shapes s a = Some s.
Proof.
  unfold broadcast_shapes.
  destruct (broadcast_rev (rev a) (rev b)) as [r|] eqn:E; [|discriminate].
  intros [= <-]. rewrite rev_involutive, (broadcast_rev_absorb _ _ E).
  reflexivity.
Qed.

Lemma broadcast_rev_fits (a b s : list nat) :
  broadcast_rev a b = Some s ->
  exists s1 s2, s = s1 ++ s2 /\ Forall2 fits a s1.
Proof.
  revert b s. induction a as [|x a IH]; intros b s; simpl.
  - intros _. exists [], s. split; [reflexivity | constructor].
  - destruct b as [|y b].
    + intros [= <-]. exists (x :: a), []. rewrite app_nil_r. split; [reflexivity|].
      clear. induction (x :: a); constructor; [left; reflexivity | assumption].
    + destruct (broadcast_rev a b) as [r|] eqn:E; [|discriminate].
      destruct (IH _ _ E) as (s1 & s2 & -> & HF).
      destruct (Nat.eqb_spec x y) as [->|Hxy].
      { intros [= <-]. exists (y :: s1), s2. split; [reflexivity|].
        constructor; [left; reflexivity | assumption]. }
      destruct (Nat.eqb_spec x 1) as [->|Hx].
      { intros [= <-]. exists (y :: s1), s2. split; [reflexivity|].
        constructor; [right; reflexivity | assumption]. }
      destruct (Nat.eqb_spec y 1) as [->|Hy]; [|discriminate].
      intros [= <-]. exists (x :: s1), s2. split; [reflexivity|].
      constructor; [left; reflexivity | assumption].
Qed.

Lemma Forall2_rev {A B} (P : A -> B -> Prop) (l : list A) (l' : list B) :
  Forall2 P l l' -> Forall2 P (rev l) (rev l').
Proof.
  induction 1 as [|x y l l' Hxy _ IH]; simpl.
  - constructor.
  - apply Forall2_app; [exact IH | repeat constructor; exact Hxy].
Qed.

Lemma broadcast_shapes_fits (a b s : list nat) :
  broadcast_shapes a b = Some s ->
  exists s1 s2, s = s1 ++ s2 /\ Forall2 fits a s2.
Proof.
  unfold broadcast_shapes.
  destruct (broadcast_rev (rev a) (rev b)) as [r|] eqn:E; [|discriminate].
  intros [= <-].
  destruct (broadcast_rev_fits _ _ E) as (s1 & s2 & -> & HF).
  exists (rev s2), (rev s1). split.
  - apply rev_app_distr.
  - rewrite <- (rev_involutive a). apply Forall2_rev. exact HF.
Qed.

Lemma clamp1_valid (a s idx : list nat) :
  Forall2 fits a s -> valid_idx s idx -> valid_idx a (clamp1 a idx).
Proof.
  unfold valid_idx. intros HF. revert idx.
  induction HF as [|x y a s Hxy HF IH]; intros idx Hv; inversion Hv; subst; simpl.
  - constructor.
  - constructor; [|auto].
    destruct Hxy as [->| ->].
    + destruct (Nat.eqb_spec y 1); lia.
    + simpl. lia.
Qed.

Lemma bidx_valid (a b s idx : list nat) :
  broadcast_shapes a b = Some s ->
  valid_idx s idx -> valid_idx a (bidx a idx).
Proof.
  intros Hb Hv. destruct (broadcast_shapes_fits _ _ Hb) as (s1 & s2 & -> & HF).
  unfold bidx. unfold valid_idx in Hv.
  apply Forall2_app_inv_r in Hv. destruct Hv as (i1 & i2 & H1 & H2 & ->).
  apply Forall2_length in H1. pose proof (Forall2_length H2) as L2.
  pose proof (Forall2_length HF) as La.
  rewrite length_app.
  replace (length i1 + length i2 - length a)%nat with (length i1 + 0)%nat by lia.
  rewrite skipn_app, Nat.add_0_r, skipn_all, Nat.sub_diag. simpl.
  eapply clamp1_valid; eassumption.
Qed.

Lemma bidx_valid_r (a b s idx : list nat) :
  broadcast_shapes a b = Some s ->
  valid_idx s idx -> valid_idx b (bidx b idx).
Proof. rewrite broadcast_shapes_sym. apply bidx_valid. Qed.

Lemma clamp1_same (s idx : list nat) :
  valid_idx s idx -> clamp1 s idx = idx.
Proof.
  unfold valid_idx. intros H. induction H as [|i n idx s Hi _ IH]; simpl.
  - reflexivity.
  - rewrite IH. destruct (Nat.eqb_spec n 1); [f_equal; lia | reflexivity].
Qed.

Lemma bidx_same (s idx : list nat) :
  valid_idx s idx -> bidx s idx = idx.
Proof.
  intros H. unfold bidx. rewrite (Forall2_length H), Nat.sub_diag. simpl.
  apply clamp1_same. exact H.
Qed.

Lemma bget_same {A} `{Dflt A} (t : tensor A) (idx : list nat) :
  valid_idx (shape t) idx -> bget t idx = get t idx.
Proof. intros Hv. unfold bget. rewrite bidx_same by exact Hv. reflexivity. Qed.

(** The elementwise operation on two tensors of one shape. *)
Lemma tmap2_same {A B C} `{Dflt A} `{Dflt B}
    (f : A -> B -> C) (a : tensor A) (b : tensor B) :
  shape b = shape a ->
  tmap2 f a b = Ok (tabulate (shape a) (fun idx => f (get a idx) (get b idx))).
Proof.
  intros Hs. unfold tmap2. rewrite Hs, broadcast_shapes_refl.
  f_equal. unfold tabulate. f_equal. apply map_ext_in.
  intros idx Hin. apply In_indices in Hin.
  rewrite !bget_same by (rewrite ?Hs; exact Hin). reflexivity.
Qed.

(** ** The constructor of the encoder *)

Lemma prefix_append (p s : string) : String.prefix p (p ++ s)%string = true.
Proof.
  induction p as [|c p IH]; simpl.
  - destruct s; reflexivity.
  - destruct (Ascii.ascii_dec c c) as [_|N]; [exact IH | congruence].
Qed.

Lemma contains_prefix (p s : string) :
  String.prefix p s = true -> contains p s = true.
Proof. destruct s; simpl; intros ->; reflexivity. Qed.

Lemma contains_here (p s : string) : contains p (p ++ s)%string = true.
Proof. apply contains_prefix, prefix_append. Qed.

Lemma contains_append_l (p a s : string) :
  contains p s = true -> contains p (a ++ s)%string = true.
Proof.
  intros H. induction a as [|c a IH]; simpl.
  - exact H.
  - rewrite IH. apply orb_true_r.
Qed.

Lemma contains_middle (p a b : string) :
  contains p (a ++ p ++ b)%string = true.
Proof. apply contains_append_l, contains_here. Qed.

Section Construction.

Variable NNModule : Type.
Variable nn_GRU GRUD_cell nn_Linear : Z -> Z -> result NNModule.

(** C6.  A variant name outside ['gru', 'grud'] makes the constructor raise
    a [ValueError] whose message holds the name given and the allowed names.
    With an allowed name the only exceptions that leave the constructor are
    those of the modules it builds, and it returns the encoder when they
    are built. *)
Theorem RNNEncoder_init_variant_check
    (input_dim hidden_dim latent_dim : Z) (encoder : string) :
  let allowed := ["gru"; "grud"]%string in
  let msg := invalid_encoder_msg encoder allowed in
  (~ In encoder allowed ->
     RNNEncoder_init nn_GRU GRUD_cell nn_Linear
       input_dim hidden_dim latent_dim encoder = Raise (ValueError msg)
     /\ contains encoder msg = true
     /\ contains (py_repr_list allowed) msg = true
     /\ Forall (fun a => contains a msg = true) allowed)
  /\
  (In encoder allowed ->
     let build :=
       if (encoder =? "gru")%string
       then nn_GRU (input_dim + 1) hidden_dim
       else GRUD_cell input_dim hidden_dim in
     (forall e,
        RNNEncoder_init nn_GRU GRUD_cell nn_Linear
       input_dim hidden_dim latent_dim encoder = Raise e ->
        build = Raise e \/ nn_Linear hidden_dim (2 * latent_dim) = Raise e)
     /\
     (forall rnn h2l,
        build = Ok rnn ->
        nn_Linear hidden_dim (2 * latent_dim) = Ok h2l ->
        RNNEncoder_init nn_GRU GRUD_cell nn_Linear
       input_dim hidden_dim latent_dim encoder
        = Ok (mkRNNEncoder input_dim hidden_dim latent_dim encoder allowed
                rnn h2l))).
Proof.
  intros allowed msg. unfold RNNEncoder_init. split.
  - intros Hnot.
    assert (H1 : (encoder =? "gru")%string = false).
    { apply String.eqb_neq. intros ->. apply Hnot. simpl. auto. }
    assert (H2 : (encoder =? "grud")%string = false).
    { apply String.eqb_neq. intros ->. apply Hnot. simpl. auto. }
    rewrite H1, H2. cbn [rbind]. split; [reflexivity|].
    subst msg. unfold invalid_encoder_msg. split; [apply contains_middle|].
    split.
    + apply contains_append_l, contains_append_l, contains_append_l.
      apply contains_here with (s := EmptyString).
    + repeat constructor;
        apply contains_append_l, contains_append_l; reflexivity.
  - intros Hin.
    assert (Hcase : (encoder =? "gru")%string = true
                    \/ ((encoder =? "gru")%string = false
                        /\ (encoder =? "grud")%string = true)).
    { destruct Hin as [<-|[<-|[]]]; [left | right; split]; reflexivity. }
    split.
    + intros e.
      destruct Hcase as [-> | [-> ->]].
      * destruct (nn_GRU (input_dim + 1) hidden_dim) as [g|e1]; cbn [rbind].
        -- destruct (nn_Linear hidden_dim (2 * latent_dim)); cbn [rbind];
             [discriminate | intros [= <-]; right; reflexivity].
        -- intros [= <-]; left; reflexivity.
      * destruct (GRUD_cell input_dim hidden_dim) as [g|e1]; cbn [rbind].
        -- destruct (nn_Linear hidden_dim (2 * latent_dim)); cbn [rbind];
             [discriminate | intros [= <-]; right; reflexivity].
        -- intros [= <-]; left; reflexivity.
    + intros rnn h2l Hb Hl.
      destruct Hcase as [E | [E1 E2]].
      * rewrite E in *. rewrite Hb. cbn [rbind]. rewrite Hl. reflexivity.
      * rewrite E1 in *. rewrite E2. rewrite Hb. cbn [rbind]. rewrite Hl.
        reflexivity.
Qed.

End Construction.

Lemma RNNEncoder_init_variant_check_witness :
  RNNEncoder_init (fun _ _ => Ok 0%nat) (fun _ _ => Ok 1%nat)
    (fun _ _ => Ok 2%nat) 3 8 4 "bogus"
  = Raise (ValueError
      "Invalid encoder! Encoder specified: bogus, Allowed Encoders: ['gru', 'grud']")
  /\ RNNEncoder_init (fun _ _ => Ok 0%nat) (fun _ _ => Ok 1%nat)
       (fun _ _ => Ok 2%nat) 3 8 4 "grud"
     = Ok (mkRNNEncoder 3 8 4 "grud" ["gru"; "grud"]%string 1%nat 2%nat).
Proof.
  pose proof (RNNEncoder_init_variant_check
                (fun _ _ => Ok 0%nat) (fun _ _ => Ok 1%nat)
                (fun _ _ => Ok 2%nat) 3 8 4 "bogus") as [Hbad _].
  pose proof (RNNEncoder_init_variant_check
                (fun _ _ => Ok 0%nat) (fun _ _ => Ok 1%nat)
                (fun _ _ => Ok 2%nat) 3 8 4 "grud") as [_ Hgood].
  split.
  - apply Hbad. simpl. intros [H|[H|[]]]; discriminate H.
  - apply Hgood; [simpl; auto | reflexivity | reflexivity].
Defined.

(** ** The forward passes of the decoder and of the composed model *)

Section Forward.

Variable NNModule : Type.
Variable call_rnn : NNModule -> tensor R -> result (tensor R * tensor R).
Variable call_gru_d : NNModule -> tensor R -> result (tensor R * tensor R).
Variable call_linear : NNModule -> tensor R -> result (tensor R).
Variable call_ode : NNModule -> tensor R -> tensor R -> result (tensor R).

(** C3.  With [MAP=True] the composed forward pass is the encoder followed
    by the decoder applied to the encoder's [mu]: the [z] it returns is
    that [mu], and no noise enters the result. *)
Theorem ODEVAE_forward_MAP
    (self : ODEVAE NNModule) (noise : tensor R)
    (x t_encoder t_decoder : loc) (h : heap) :
  ODEVAE_forward call_rnn call_gru_d call_linear call_ode
    self noise x t_encoder t_decoder true h
  = match RNNEncoder_forward call_rnn call_gru_d call_linear
            (rnn_encoder self) x t_encoder h with
    | (Ok (mu, logvar), h1) =>
        match NeuralODEDecoder_forward call_linear call_ode
                (neural_decoder self) mu t_decoder h1 with
        | (Ok x_p, h2) => (Ok (x_p, mu, mu, logvar), h2)
        | (Raise e, h2) => (Raise e, h2)
        end
    | (Raise e, h1) => (Raise e, h1)
    end
  /\
  (forall x_p z mu logvar h',
     ODEVAE_forward call_rnn call_gru_d call_linear call_ode
       self noise x t_encoder t_decoder true h
     = (Ok (x_p, z, mu, logvar), h') ->
     z = mu
     /\ exists h1,
          RNNEncoder_forward call_rnn call_gru_d call_linear
            (rnn_encoder self) x t_encoder h = (Ok (mu, logvar), h1)
          /\ NeuralODEDecoder_forward call_linear call_ode
               (neural_decoder self) mu t_decoder h1 = (Ok x_p, h')).
Proof.
  unfold ODEVAE_forward, bind.
  destruct (RNNEncoder_forward _ _ _ _ _ _ _) as [[[mu logvar]|e] h1].
  - unfold ret.
    destruct (NeuralODEDecoder_forward _ _ _ _ _ _) as [[x_p|e] h2] eqn:D.
    + split; [reflexivity|]. intros x_p' z mu' logvar' h' [= <- <- <- <- <-].
      split; [reflexivity|]. exists h1. split; [reflexivity | exact D].
    + split; [reflexivity | discriminate].
  - split; [reflexivity | discriminate].
Qed.

(** C7.  Two time tensors with the same [t[:, 0, 0]] give the same decoder
    output, whatever else they and the heaps around them hold. *)
Theorem NeuralODEDecoder_forward_shared_time_axis
    (self : NeuralODEDecoder NNModule) (z0 : tensor R)
    (h1 h2 : heap) (t1 t2 : loc) (v1 v2 : tensor R) :
  nth_error h1 t1 = Some v1 ->
  nth_error h2 t2 = Some v2 ->
  getitem_c_0_0 v1 = getitem_c_0_0 v2 ->
  fst (NeuralODEDecoder_forward call_linear call_ode self z0 t1 h1)
  = fst (NeuralODEDecoder_forward call_linear call_ode self z0 t2 h2).
Proof.
  intros H1 H2 Heq.
  unfold NeuralODEDecoder_forward, bind, read, lift, ret.
  rewrite H1, H2, Heq.
  destruct (getitem_c_0_0 v2) as [t_1d|e]; [|reflexivity].
  destruct (call_ode (ode self) z0 t_1d) as [zs|e]; [|reflexivity].
  destruct (call_linear (l2h self) zs) as [hs|e]; [|reflexivity].
  destruct (call_linear (h2o self) hs) as [xs|e]; reflexivity.
Qed.

End Forward.

Lemma NeuralODEDecoder_forward_shared_time_axis_witness :
  let t1 := mkTensor [2; 1; 2]%nat [1; 5; 2; 6] in
  let t2 := mkTensor [2; 2; 1]%nat [1; 7; 2; 9] in
  let self := mkNeuralODEDecoder 3 8 4 0%nat 1%nat 2%nat in
  let linear := fun (_ : nat) (v : tensor R) => Ok v in
  let integrate := fun (_ : nat) (z0 t : tensor R) => tadd z0 t in
  fst (NeuralODEDecoder_forward linear integrate self (scalar 10) 0%nat [t1; t2])
  = fst (NeuralODEDecoder_forward linear integrate self (scalar 10) 1%nat [t1; t2]).
Proof.
  intros t1 t2 self linear integrate.
  apply (@NeuralODEDecoder_forward_shared_time_axis nat linear integrate self
           (scalar 10) [t1; t2] [t1; t2] 0%nat 1%nat t1 t2).
  - reflexivity.
  - reflexivity.
  - vm_compute. reflexivity.
Defined.

(** ** The variational loss *)

(** C8.  The loss does not read its [z] argument. *)
Theorem vae_loss_function_ignores_z
    (dev : device) (x_p x z1 z2 mu logvar : tensor R) :
  vae_loss_function dev x_p x z1 mu logvar
  = vae_loss_function dev x_p x z2 mu logvar.
Proof. reflexivity. Qed.

(** ** Tables *)

Lemma tmap_tabulate {A B} (f : A -> B) (s : list nat) (g : list nat -> A) :
  tmap f (tabulate s g) = tabulate s (fun idx => f (g idx)).
Proof. unfold tmap, tabulate; simpl. rewrite map_map. reflexivity. Qed.

Lemma shape_tmap {A B} (f : A -> B) (t : tensor A) :
  shape (tmap f t) = shape t.
Proof. reflexivity. Qed.

Lemma shape_tabulate {A} (s : list nat) (f : list nat -> A) :
  shape (tabulate s f) = s.
Proof. reflexivity. Qed.

Lemma tabulate_ext {A} (s : list nat) (f g : list nat -> A) :
  (forall idx, valid_idx s idx -> f idx = g idx) ->
  tabulate s f = tabulate s g.
Proof.
  intros H. unfold tabulate. f_equal. apply map_ext_in.
  intros idx Hin. apply H, In_indices, Hin.
Qed.

Lemma twhere_same {A} `{Dflt A} (c : tensor bool) (a b : tensor A) :
  shape a = shape c -> shape b = shape c ->
  twhere c a b
  = Ok (tabulate (shape c)
          (fun idx => if get c idx then get a idx else get b idx)).
Proof.
  intros Ha Hb. unfold twhere.
  rewrite Ha, broadcast_shapes_refl, Hb, broadcast_shapes_refl.
  f_equal. apply tabulate_ext. intros idx Hv.
  rewrite !bget_same by (rewrite ?Ha, ?Hb; exact Hv). reflexivity.
Qed.

(** ** The symmetric errors, element by element *)

Lemma all_finite_Some (l : list R) : all_finite (map Some l) = Some l.
Proof.
  induction l as [|v l IH]; simpl; [reflexivity|]. rewrite IH. reflexivity.
Qed.

Lemma Rsum_zero (l : list R) : Forall (fun v => v = 0) l -> Rsum l = 0.
Proof.
  induction 1 as [|v l Hv _ IH]; simpl; [reflexivity|]. rewrite Hv, IH. lra.
Qed.

Lemma mean_list_zero (l : list R) :
  l <> [] -> Forall (fun v => v = 0) l -> mean_list l = Some 0.
Proof.
  intros Hne Hz. destruct l as [|v l]; [congruence|].
  unfold mean_list. rewrite (Rsum_zero Hz). f_equal. unfold Rdiv. lra.
Qed.

Lemma kaggle_smape_elementwise (dev : device) (y_true y_pred : tensor R) :
  wf y_true -> wf y_pred -> shape y_pred = shape y_true ->
  kaggle_smape dev y_true y_pred
  = Ok (option_map (Rmult 200)
          (tmean_fin (tabulate (shape y_true)
             (fun idx => kaggle_term (get y_true idx) (get y_pred idx))))).
Proof.
  intros Wt Wp Hs. unfold kaggle_smape, tadd, tsub, tdiv, tabs, teq0, zeros_like.
  rewrite tmap2_same by (simpl; exact Hs). cbn [rbind].
  rewrite tmap2_same by (symmetry; exact Hs). cbn [rbind].
  rewrite !shape_tmap, !tmap_tabulate.
  rewrite tmap2_same by (simpl; congruence). cbn [rbind].
  rewrite !shape_tabulate, !Hs.
  rewrite twhere_same by reflexivity. cbn [rbind].
  rewrite !shape_tabulate.
  do 3 f_equal. apply tabulate_ext. intros idx Hv.
  assert (Hv' : valid_idx (shape y_pred) idx) by (rewrite Hs; exact Hv).
  rewrite !get_tabulate by exact Hv.
  rewrite !get_tmap by assumption.
  unfold kaggle_term.
  destruct (Req_dec_T _ 0); reflexivity.
Qed.

Lemma kaggle_term_same (a : R) : kaggle_term a a = Some 0.
Proof.
  unfold kaggle_term, fdiv.
  destruct (Req_dec_T (Rabs a + Rabs a) 0) as [|Hne]; [reflexivity|].
  replace (a - a) with 0 by lra. rewrite Rabs_R0.
  f_equal. unfold Rdiv. lra.
Qed.

Lemma tmean_fin_zeros (s : list nat) :
  tmean_fin (tabulate s (fun _ => Some 0))
  = if (numel s =? 0)%nat then None else Some 0.
Proof.
  unfold tmean_fin, tabulate; cbn [data].
  rewrite <- (map_map (fun _ => 0) Some), all_finite_Some.
  pose proof (length_indices s) as L.
  destruct (Nat.eqb_spec (numel s) 0) as [E|E].
  - rewrite E in L. apply length_zero_iff_nil in L. rewrite L. reflexivity.
  - apply mean_list_zero.
    + intros Hnil. apply (f_equal (@length R)) in Hnil.
      rewrite length_map, L in Hnil. simpl in Hnil. contradiction.
    + apply Forall_forall. intros v Hin. apply in_map_iff in Hin.
      destruct Hin as (_ & <- & _). reflexivity.
Qed.

(** C5, as the code has it.  The symmetric error of a tensor against itself
    is 0 when the tensor has an element, whatever the elements are, zeros
    included; the mean of no element is NaN. *)
Theorem kaggle_smape_self (dev : device) (y : tensor R) :
  wf y ->
  kaggle_smape dev y y
  = Ok (if (numel (shape y) =? 0)%nat then None else Some 0).
Proof.
  intros Wy. rewrite kaggle_smape_elementwise by auto.
  rewrite (@tabulate_ext _ (shape y) _ (fun _ => Some 0))
    by (intros; apply kaggle_term_same).
  rewrite tmean_fin_zeros.
  destruct (numel (shape y) =? 0)%nat; simpl; [reflexivity|].
  do 2 f_equal. lra.
Qed.

Lemma kaggle_smape_self_witness :
  kaggle_smape cpu (mkTensor [2; 2]%nat [0; 3; -1; 0])
                   (mkTensor [2; 2]%nat [0; 3; -1; 0])
  = Ok (Some 0).
Proof.
  apply (@kaggle_smape_self cpu (mkTensor [2; 2]%nat [0; 3; -1; 0])).
  reflexivity.
Defined.

(** The claim of C5 fails on the tensor with no element: the result is NaN,
    not 0. *)
Lemma kaggle_smape_self_empty :
  kaggle_smape cpu (mkTensor [0]%nat []) (mkTensor [0]%nat []) = Ok None
  /\ kaggle_smape cpu (mkTensor [0]%nat []) (mkTensor [0]%nat [])
     <> Ok (Some 0).
Proof.
  assert (E : kaggle_smape cpu (mkTensor [0]%nat []) (mkTensor [0]%nat [])
              = Ok None) by reflexivity.
  split; [exact E | rewrite E; discriminate].
Qed.

(** ** Rounding and 32-bit integers *)

Lemma round_half_even_IZR (k : Z) : round_half_even (IZR k) = k.
Proof.
  unfold round_half_even. rewrite ZfloorZ.
  destruct (Rlt_dec (IZR k - IZR k) (1 / 2)) as [_|N]; [reflexivity|].
  exfalso. apply N. lra.
Qed.

Lemma trunc_IZR (k : Z) : trunc (IZR k) = k.
Proof.
  unfold trunc. destruct (Rle_dec 0 (IZR k)); [apply ZfloorZ|].
  apply Zceil_eq. lra.
Qed.

Lemma to_int32_IZR (k : Z) :
  (int32_min <= k <= int32_max)%Z -> to_int32 (IZR k) = k.
Proof.
  intros [Hlo Hhi]. unfold to_int32. rewrite trunc_IZR.
  apply Z.leb_le in Hlo, Hhi. rewrite Hlo, Hhi. reflexivity.
Qed.

Lemma wrap32_small (z : Z) :
  (int32_min <= z <= int32_max)%Z -> wrap32 z = z.
Proof.
  unfold int32_min, int32_max, wrap32. intros H.
  rewrite Z.mod_small by lia. lia.
Qed.

(** Without wrap-around the integer path computes the absolute
    difference. *)
Lemma int32_abs_diff (kt kp : Z) :
  (int32_min <= kt <= int32_max)%Z ->
  (int32_min <= kp <= int32_max)%Z ->
  (Z.abs (kp - kt) <= int32_max)%Z ->
  IZR (iabs (isub (to_int32 (IZR (round_half_even (IZR kp))))
                  (to_int32 (IZR (round_half_even (IZR kt))))))
  = Rabs (IZR kp - IZR kt).
Proof.
  intros Ht Hp Hd. rewrite !round_half_even_IZR, !to_int32_IZR by assumption.
  unfold isub, iabs.
  rewrite (@wrap32_small (kp - kt)%Z) by (unfold int32_min, int32_max in *; lia).
  rewrite wrap32_small by (unfold int32_min, int32_max in *; lia).
  rewrite abs_IZR, minus_IZR. reflexivity.
Qed.

Lemma rounded_smape_elementwise (dev : device) (y_true y_pred : tensor R) :
  wf y_true -> wf y_pred -> shape y_pred = shape y_true ->
  rounded_smape dev y_true y_pred
  = Ok (tmean_fin (tabulate (shape y_true)
          (fun idx => rounded_term (get y_true idx) (get y_pred idx)))).
Proof.
  intros Wt Wp Hs.
  unfold rounded_smape, tadd, tisub, tdiv_int, tiabs, to_IntTensor, tround,
    tabs, teq0, zeros_like.
  rewrite tmap2_same by (simpl; exact Hs). cbn [rbind].
  rewrite tmap2_same by (simpl; symmetry; exact Hs). cbn [rbind].
  rewrite !shape_tmap, !tmap_tabulate.
  rewrite tmap2_same by (simpl; congruence). cbn [rbind].
  rewrite !shape_tabulate, ?Hs.
  rewrite twhere_same by reflexivity. cbn [rbind].
  rewrite !shape_tabulate.
  do 2 f_equal. apply tabulate_ext. intros idx Hv.
  assert (Hv' : valid_idx (shape y_pred) idx) by (rewrite Hs; exact Hv).
  rewrite !get_tabulate by exact Hv.
  rewrite !get_tmap by (rewrite ?shape_tmap; auto using wf_tmap).
  unfold rounded_term.
  destruct (Req_dec_T _ 0); reflexivity.
Qed.

(** C4, as the code has it.  On integer-valued tensors of one shape whose
    elements and differences fit in 32 bits, [kaggle_smape] is 200 times
    [rounded_smape]. *)
Theorem kaggle_smape_200_rounded_smape
    (dev : device) (y_true y_pred : tensor R) :
  wf y_true -> wf y_pred -> shape y_pred = shape y_true ->
  (forall idx, valid_idx (shape y_true) idx ->
     exists kt kp : Z,
       get y_true idx = IZR kt /\ get y_pred idx = IZR kp
       /\ (int32_min <= kt <= int32_max)%Z
       /\ (int32_min <= kp <= int32_max)%Z
       /\ (Z.abs (kp - kt) <= int32_max)%Z) ->
  exists r : option R,
    rounded_smape dev y_true y_pred = Ok r
    /\ kaggle_smape dev y_true y_pred = Ok (option_map (Rmult 200) r).
Proof.
  intros Wt Wp Hs Hint.
  rewrite rounded_smape_elementwise, kaggle_smape_elementwise by assumption.
  eexists. split; [reflexivity|].
  do 3 f_equal. apply tabulate_ext. intros idx Hv.
  destruct (Hint idx Hv) as (kt & kp & -> & -> & Ht & Hp & Hd).
  unfold kaggle_term, rounded_term.
  rewrite int32_abs_diff by assumption. reflexivity.
Qed.

Lemma kaggle_term_1_3 : kaggle_term 1 3 = Some (1 / 2).
Proof.
  unfold kaggle_term, fdiv.
  rewrite (Rabs_pos_eq 1), (Rabs_pos_eq 3) by lra.
  replace (3 - 1) with 2 by lra. rewrite (Rabs_pos_eq 2) by lra.
  destruct (Req_dec_T (1 + 3) 0) as [E|_]; [lra|].
  f_equal. lra.
Qed.

Lemma rounded_term_1_3 : rounded_term 1 3 = Some (1 / 2).
Proof.
  unfold rounded_term.
  rewrite (@int32_abs_diff 1 3) by (unfold int32_min, int32_max; lia).
  exact kaggle_term_1_3.
Qed.

(** The claim of C4 fails on [y_true = [1]], [y_pred = [3]]: both tensors
    are integer-valued, [rounded_smape] is 1/2 and [kaggle_smape] is 100. *)
Lemma rounded_smape_differs_from_kaggle_smape :
  let y_true := mkTensor [1]%nat [IZR 1] in
  let y_pred := mkTensor [1]%nat [IZR 3] in
  rounded_smape cpu y_true y_pred = Ok (Some (1 / 2))
  /\ kaggle_smape cpu y_true y_pred = Ok (Some 100)
  /\ rounded_smape cpu y_true y_pred <> kaggle_smape cpu y_true y_pred.
Proof.
  intros y_true y_pred.
  assert (Hr : rounded_smape cpu y_true y_pred = Ok (Some (1 / 2))).
  { rewrite rounded_smape_elementwise by reflexivity.
    unfold tmean_fin, tabulate, y_true, y_pred, get.
    cbn [shape data indices flat_map seq map app ravel Nat.ltb Nat.leb numel
         fold_right Nat.mul Nat.add nth].
    rewrite rounded_term_1_3. cbn [all_finite option_map mean_list Rsum fold_right length INR].
    do 2 f_equal. lra. }
  assert (Hk : kaggle_smape cpu y_true y_pred = Ok (Some 100)).
  { rewrite kaggle_smape_elementwise by reflexivity.
    unfold tmean_fin, tabulate, y_true, y_pred, get.
    cbn [shape data indices flat_map seq map app ravel Nat.ltb Nat.leb numel
         fold_right Nat.mul Nat.add nth].
    rewrite kaggle_term_1_3. cbn [all_finite option_map mean_list Rsum fold_right length INR].
    do 2 f_equal. lra. }
  split; [exact Hr|]. split; [exact Hk|].
  rewrite Hr, Hk. intros [= H]. lra.
Qed.

(** When a difference does not fit in 32 bits the integer path wraps
    around: for -2000000000 against 2000000000 the numerator of
    [rounded_smape] is 294967296, that of [kaggle_smape] is 4000000000. *)
Lemma rounded_term_wraps :
  rounded_term (-2000000000) 2000000000 = Some (294967296 / 4000000000)
  /\ kaggle_term (-2000000000) 2000000000 = Some 1.
Proof.
  unfold rounded_term, kaggle_term, fdiv.
  rewrite (Rabs_left (-2000000000)), (Rabs_pos_eq 2000000000) by lra.
  replace (2000000000 - -2000000000) with 4000000000 by lra.
  rewrite (Rabs_pos_eq 4000000000) by lra.
  replace (- -2000000000 + 2000000000) with 4000000000 by lra.
  destruct (Req_dec_T 4000000000 0) as [E|_]; [lra|].
  rewrite !round_half_even_IZR.
  rewrite !to_int32_IZR by (unfold int32_min, int32_max; lia).
  replace (iabs (isub 2000000000 (-2000000000))) with 294967296%Z
    by reflexivity.
  split; [reflexivity|]. f_equal. unfold Rdiv. rewrite Rinv_r; lra.
Qed.

Lemma kaggle_smape_200_rounded_smape_witness :
  exists r : option R,
    rounded_smape cpu (mkTensor [2]%nat [IZR 1; IZR 0])
                      (mkTensor [2]%nat [IZR 3; IZR 0]) = Ok r
    /\ kaggle_smape cpu (mkTensor [2]%nat [IZR 1; IZR 0])
                        (mkTensor [2]%nat [IZR 3; IZR 0])
       = Ok (option_map (Rmult 200) r).
Proof.
  apply (@kaggle_smape_200_rounded_smape cpu
           (mkTensor [2]%nat [IZR 1; IZR 0]) (mkTensor [2]%nat [IZR 3; IZR 0])).
  - reflexivity.
  - reflexivity.
  - reflexivity.
  - intros idx Hv. inversion Hv as [|i n r s Hi Hr]; subst.
    inversion Hr; subst.
    assert (Hc : i = 0%nat \/ i = 1%nat) by lia.
    destruct Hc as [-> | ->].
    + exists 1%Z, 3%Z.
      repeat split; try reflexivity; unfold int32_min, int32_max; lia.
    + exists 0%Z, 0%Z.
      repeat split; try reflexivity; unfold int32_min, int32_max; lia.
Defined.

(** ** The smoothed symmetric error *)

Lemma tmap2_broadcast {A B C} `{Dflt A} `{Dflt B}
    (f : A -> B -> C) (a : tensor A) (b : tensor B) (s : list nat) :
  broadcast_shapes (shape a) (shape b) = Some s ->
  tmap2 f a b = Ok (tabulate s (fun idx => f (bget a idx) (bget b idx))).
Proof. intros Hs. unfold tmap2. rewrite Hs. reflexivity. Qed.

Lemma bget_tmap {A B} `{Dflt A} `{Dflt B}
    (f : A -> B) (t : tensor A) (b s idx : list nat) :
  wf t -> broadcast_shapes (shape t) b = Some s -> valid_idx s idx ->
  bget (tmap f t) idx = f (bget t idx).
Proof.
  intros Wt Hs Hv. unfold bget. rewrite shape_tmap.
  apply get_tmap; [exact Wt | eapply bidx_valid; eassumption].
Qed.

Lemma smape_denominator_elementwise
    (y_true y_pred : tensor R) (epsilon : R) (s : list nat) :
  wf y_true -> wf y_pred ->
  broadcast_shapes (shape y_true) (shape y_pred) = Some s ->
  smape_denominator y_true y_pred epsilon
  = Ok (tabulate s (fun idx =>
          Rmax (Rabs (bget y_true idx) + Rabs (bget y_pred idx) + epsilon)
               (0.5 + epsilon))).
Proof.
  intros Wt Wp Hs. unfold smape_denominator, tadd, tmaximum, tabs, full.
  rewrite (tmap2_broadcast _ _ _ (s := s)) by exact Hs. cbn [rbind].
  rewrite tmap_tabulate.
  rewrite (tmap2_broadcast _ _ _ (s := s))
    by (apply broadcast_shapes_absorb with (b := shape y_pred); exact Hs).
  f_equal. apply tabulate_ext. intros idx Hv.
  rewrite bget_same by exact Hv.
  rewrite get_tabulate by exact Hv.
  rewrite (bget_tmap _ _ Wt Hs Hv).
  rewrite bget_tmap with (b := shape y_true) (s := s)
    by (try rewrite broadcast_shapes_sym; assumption).
  f_equal. unfold bget. cbn [shape tabulate].
  apply (get_tabulate (fun _ => 0.5 + epsilon)).
  eapply bidx_valid; eassumption.
Qed.

Lemma half_le_Rmax (a epsilon : R) :
  0 <= epsilon -> 0.5 <= Rmax a (0.5 + epsilon).
Proof. intros He. pose proof (Rmax_r a (0.5 + epsilon)). lra. Qed.

(** C10.  Whenever the two shapes can be broadcast together, every
    denominator of [differentiable_smape] is
    [max(|y_true| + |y_pred| + epsilon, 0.5 + epsilon)], at least 0.5 and
    positive; every quotient is a finite real and the function returns the
    mean of the quotients times 2. *)
Theorem differentiable_smape_total
    (dev : device) (y_true y_pred : tensor R) (epsilon : R) (s : list nat) :
  wf y_true -> wf y_pred -> 0 <= epsilon ->
  broadcast_shapes (shape y_true) (shape y_pred) = Some s ->
  let denom := fun idx =>
    Rmax (Rabs (bget y_true idx) + Rabs (bget y_pred idx) + epsilon)
         (0.5 + epsilon) in
  (exists summ,
      smape_denominator y_true y_pred epsilon = Ok summ
      /\ shape summ = s
      /\ (forall idx, valid_idx s idx -> get summ idx = denom idx)
      /\ Forall (fun d => 0.5 <= d /\ 0 < d) (data summ))
  /\ differentiable_smape dev y_true y_pred epsilon
     = Ok (mean_list
             (map (fun idx =>
                     Rabs (bget y_pred idx - bget y_true idx) / denom idx * 2)
                  (indices s))).
Proof.
  intros Wt Wp He Hs denom. split.
  - eexists. split; [apply smape_denominator_elementwise; eassumption|].
    split; [reflexivity|]. split.
    + intros idx Hv. apply (get_tabulate denom Hv).
    + apply Forall_forall. intros d Hd. cbn [data tabulate] in Hd.
      apply in_map_iff in Hd. destruct Hd as (idx & <- & _).
      pose proof (half_le_Rmax
                    (Rabs (bget y_true idx) + Rabs (bget y_pred idx) + epsilon)
                    He).
      lra.
  - unfold differentiable_smape.
    rewrite (smape_denominator_elementwise epsilon Wt Wp Hs). cbn [rbind].
    unfold tsub, tdiv, tabs.
    rewrite (tmap2_broadcast _ _ _ (s := s))
      by (rewrite broadcast_shapes_sym; exact Hs).
    cbn [rbind]. rewrite tmap_tabulate.
    rewrite tmap2_same by reflexivity. cbn [rbind].
    rewrite tmap_tabulate, shape_tabulate.
    rewrite (@tabulate_ext _ s _
               (fun idx => Some (Rabs (bget y_pred idx - bget y_true idx)
                                 / denom idx * 2))).
    + unfold tmean_fin, tabulate; cbn [data].
      rewrite <- (map_map _ Some), all_finite_Some. reflexivity.
    + intros idx Hv. rewrite !get_tabulate by exact Hv.
      unfold fdiv. fold (denom idx).
      destruct (Req_dec_T (denom idx) 0) as [E|_]; [|reflexivity].
      exfalso. subst denom. cbn beta in E.
      pose proof (half_le_Rmax
                    (Rabs (bget y_true idx) + Rabs (bget y_pred idx) + epsilon)
                    He).
      lra.
Qed.

Lemma differentiable_smape_total_witness :
  exists summ,
    smape_denominator (mkTensor [2]%nat [0; 3]) (mkTensor [1]%nat [0]) 0
    = Ok summ
    /\ Forall (fun d => 0.5 <= d /\ 0 < d) (data summ).
Proof.
  destruct (@differentiable_smape_total cpu
              (mkTensor [2]%nat [0; 3]) (mkTensor [1]%nat [0]) 0 [2]%nat)
    as [(summ & Hd & _ & _ & Hall) _].
  - reflexivity.
  - reflexivity.
  - lra.
  - reflexivity.
  - exists summ. split; assumption.
Defined.

(** ** The variational loss against its specification *)

Lemma indices_1d (n : nat) : indices [n] = map (fun i => [i]) (seq 0 n).
Proof.
  simpl. induction (seq 0 n) as [|i l IH]; simpl; [reflexivity|].
  rewrite IH. reflexivity.
Qed.

Lemma Rsum_map_ext {A} (f g : A -> R) (l : list A) :
  (forall a, In a l -> f a = g a) -> Rsum (map f l) = Rsum (map g l).
Proof. intros H. f_equal. apply map_ext_in. exact H. Qed.

Lemma Rsum_map_zero {A} (f : A -> R) (l : list A) :
  (forall a, In a l -> f a = 0) -> Rsum (map f l) = 0.
Proof.
  intros H. apply Rsum_zero, Forall_forall. intros v Hv.
  apply in_map_iff in Hv. destruct Hv as (a & <- & Ha). auto.
Qed.

Lemma valid_idx_2 (n0 n1 i0 i1 : nat) :
  (i0 < n0)%nat -> (i1 < n1)%nat -> valid_idx [n0; n1] [i0; i1].
Proof. intros. repeat constructor; assumption. Qed.

Lemma valid_idx_3 (n0 n1 n2 i0 i1 i2 : nat) :
  (i0 < n0)%nat -> (i1 < n1)%nat -> (i2 < n2)%nat ->
  valid_idx [n0; n1; n2] [i0; i1; i2].
Proof. intros. repeat constructor; assumption. Qed.

Lemma in_seq_0 (n i : nat) : In i (seq 0 n) -> (i < n)%nat.
Proof. intros H. apply in_seq in H. lia. Qed.

Lemma tsum_dim_at (d : Z) (k : nat) (t : tensor R) :
  shape t <> [] -> norm_dim d (length (shape t)) = Some k ->
  tsum_dim d t
  = Ok (tabulate (remove_at k (shape t)) (fun idx =>
          Rsum (map (fun j => get t (insert_at k j idx))
                    (seq 0 (nth k (shape t) 0%nat))))).
Proof.
  intros Hne Hk. unfold tsum_dim. destruct (shape t); [congruence|].
  rewrite Hk. reflexivity.
Qed.

Lemma vae_loss_function_spec (dev : device) (T B F L : nat)
    (x_hat x z mu logvar : tensor R) :
  wf mu -> wf logvar ->
  shape x = [T; B; F]%nat -> shape x_hat = [T; B; F]%nat ->
  shape mu = [B; L]%nat -> shape logvar = [B; L]%nat ->
  vae_loss_function dev x_hat x z mu logvar
  = Ok (vae_loss_spec T B F L x_hat x mu logvar).
Proof.
  intros Wm Wl Sx Sh Sm Sl.
  unfold vae_loss_function, tsub, tadd, tpow, texp.
  rewrite tmap2_same by congruence. cbn [rbind].
  rewrite tmap_tabulate, Sx.
  rewrite (@tsum_dim_at (-1) 2) by (try discriminate; reflexivity).
  cbn [rbind]. rewrite shape_tabulate.
  rewrite (@tsum_dim_at 0 0) by (try discriminate; reflexivity).
  cbn [rbind]. rewrite shape_tabulate, tmap_tabulate.
  rewrite tmap2_same by (simpl; congruence). cbn [rbind].
  rewrite shape_tmap, Sl.
  rewrite tmap2_same by (simpl; congruence). cbn [rbind].
  rewrite shape_tabulate.
  rewrite (@tsum_dim_at (-1) 1) by (try discriminate; reflexivity).
  cbn [rbind]. rewrite shape_tabulate, tmap_tabulate.
  cbn [remove_at nth firstn skipn app].
  rewrite tmap2_same by reflexivity. cbn [rbind].
  rewrite shape_tabulate.
  f_equal. unfold tmean, vae_loss_spec, tabulate at 1. cbn [data].
  rewrite indices_1d, map_map. f_equal.
  apply map_ext_in. intros b Hb. apply in_seq_0 in Hb.
  assert (Vb : valid_idx [B] [b]) by (repeat constructor; exact Hb).
  rewrite !get_tabulate by exact Vb.
  cbn [insert_at firstn skipn app].
  f_equal; f_equal.
  - apply Rsum_map_ext. intros t Ht. apply in_seq_0 in Ht.
    rewrite get_tabulate by (apply valid_idx_2; assumption).
    cbn [insert_at firstn skipn app].
    apply Rsum_map_ext. intros f Hf. apply in_seq_0 in Hf.
    rewrite get_tabulate by (apply valid_idx_3; assumption).
    reflexivity.
  - apply Rsum_map_ext. intros l Hl. apply in_seq_0 in Hl.
    assert (Vl : valid_idx [B; L] [b; l]) by (apply valid_idx_2; assumption).
    rewrite !get_tabulate by exact Vl.
    rewrite !get_tmap by (rewrite ?Sm, ?Sl; assumption).
    reflexivity.
Qed.

Lemma vae_loss_spec_zero (T B F L : nat) (x mu logvar : tensor R) :
  (forall b l, (b < B)%nat -> (l < L)%nat -> get mu [b; l] = 0) ->
  (forall b l, (b < B)%nat -> (l < L)%nat -> get logvar [b; l] = 0) ->
  vae_loss_spec T B F L x x mu logvar
  = if (B =? 0)%nat then None else Some 0.
Proof.
  intros Hm Hl. unfold vae_loss_spec.
  rewrite (map_ext_in _ (fun _ => 0)).
  - destruct B as [|B]; [reflexivity|]. rewrite <- Nat.add_1_r at 1.
    cbn [Nat.eqb]. apply mean_list_zero.
    + intros E. apply (f_equal (@length R)) in E.
      rewrite length_map, length_seq in E. simpl in E. lia.
    + apply Forall_forall. intros v Hv. apply in_map_iff in Hv.
      destruct Hv as (_ & <- & _). reflexivity.
  - intros b Hb. apply in_seq_0 in Hb.
    rewrite Rsum_map_zero, Rsum_map_zero; [lra | |].
    + intros l Hl'. apply in_seq_0 in Hl'.
      rewrite Hm, Hl by assumption. rewrite exp_0. lra.
    + intros t _. apply Rsum_map_zero. intros f _. lra.
Qed.

(** C2, as the code has it.  On an observation of shape (T, B, F) and
    latent parameters of shape (B, L) the loss is the batch mean that the
    specification describes.  With a perfect reconstruction and
    [mu = logvar = 0] it is 0 when the batch has an element; the mean over
    an empty batch is NaN. *)
Theorem vae_loss_function_batch_mean (dev : device) (T B F L : nat)
    (x_hat x z mu logvar : tensor R) :
  wf mu -> wf logvar ->
  shape x = [T; B; F]%nat -> shape x_hat = [T; B; F]%nat ->
  shape mu = [B; L]%nat -> shape logvar = [B; L]%nat ->
  vae_loss_function dev x_hat x z mu logvar
  = Ok (vae_loss_spec T B F L x_hat x mu logvar)
  /\
  (x_hat = x ->
   (forall b l, (b < B)%nat -> (l < L)%nat -> get mu [b; l] = 0) ->
   (forall b l, (b < B)%nat -> (l < L)%nat -> get logvar [b; l] = 0) ->
   vae_loss_function dev x_hat x z mu logvar
   = Ok (if (B =? 0)%nat then None else Some 0)).
Proof.
  intros Wm Wl Sx Sh Sm Sl.
  pose proof (vae_loss_function_spec dev x_hat x z Wm Wl Sx Sh Sm Sl) as E.
  split; [exact E|].
  intros -> Hm Hl. rewrite E. f_equal. apply vae_loss_spec_zero; assumption.
Qed.

Lemma vae_loss_function_batch_mean_witness :
  let x := mkTensor [2; 1; 2]%nat [1; 2; 3; 4] in
  let zero := mkTensor [1; 2]%nat [0; 0] in
  vae_loss_function cpu x x x zero zero = Ok (Some 0).
Proof.
  intros x zero.
  apply (@vae_loss_function_batch_mean cpu 2 1 2 2 x x x zero zero);
    try reflexivity.
  - intros b l Hb Hl.
    assert (b = 0%nat) by lia. subst b.
    assert (Hc : l = 0%nat \/ l = 1%nat) by lia.
    destruct Hc as [-> | ->]; reflexivity.
  - intros b l Hb Hl.
    assert (b = 0%nat) by lia. subst b.
    assert (Hc : l = 0%nat \/ l = 1%nat) by lia.
    destruct Hc as [-> | ->]; reflexivity.
Defined.

(** The claim of C2 fails on an empty batch: with a perfect reconstruction
    and [mu = logvar = 0] of shapes (1, 0, 1) and (0, 1) the loss is NaN,
    not 0. *)
Lemma vae_loss_function_empty_batch :
  let x := mkTensor [1; 0; 1]%nat [] in
  let zero := full [0; 1]%nat 0 in
  vae_loss_function cpu x x x zero zero = Ok None
  /\ vae_loss_function cpu x x x zero zero <> Ok (Some 0).
Proof.
  intros x zero.
  assert (E : vae_loss_function cpu x x x zero zero = Ok None)
    by reflexivity.
  split; [exact E | rewrite E; discriminate].
Qed.

(** ** The heap *)

Lemma read_last (h : heap) (v : tensor R) :
  read (length h) (h ++ [v]) = (Ok v, h ++ [v]).
Proof.
  unfold read. rewrite nth_error_app2, Nat.sub_diag by lia. reflexivity.
Qed.

Lemma write_last (h : heap) (v w : tensor R) :
  write (length h) w (h ++ [v]) = (Ok tt, h ++ [w]).
Proof.
  unfold write. rewrite nth_error_app2, Nat.sub_diag by lia.
  cbn [nth_error]. f_equal.
  rewrite firstn_app, Nat.sub_diag, firstn_all, firstn_O, app_nil_r.
  rewrite skipn_all2 by (rewrite length_app; simpl; lia).
  reflexivity.
Qed.

(** ** Slices of the first dimension *)

Lemma py_slice_init (n : nat) :
  py_slice None (Some (-1)%Z) n = (0%nat, (n - 1)%nat).
Proof.
  unfold py_slice, py_bound. cbn [Z.ltb Z.compare]. f_equal. lia.
Qed.

Lemma py_slice_tail (n : nat) :
  (1 <= n)%nat -> py_slice (Some 1%Z) None n = (1%nat, (n - 1)%nat).
Proof.
  intros Hn. unfold py_slice, py_bound. cbn [Z.ltb Z.compare].
  assert (E : Z.to_nat (Z.min (Z.max 0 1) (Z.of_nat n)) = 1%nat) by lia.
  rewrite E. reflexivity.
Qed.

(** ** The time offsets of the encoder *)

(** What the first three statements of [RNNEncoder.forward] leave in the
    clone of a time tensor [old] of shape [n :: s]. *)
Lemma time_offsets_run (t : loc) (h : heap) (old : tensor R)
    (n : nat) (s : list nat) :
  nth_error h t = Some old -> shape old = n :: s -> (1 <= n)%nat ->
  time_offsets t h
  = (Ok (length h),
     h ++ [tabulate (n :: s) (fun idx =>
             match idx with
             | i :: r =>
                 if (i =? 0)%nat then 0
                 else get old ((i - 1)%nat :: r) - get old (i :: r)
             | [] => 0
             end)]).
Proof.
  intros Ht Hs Hn.
  unfold time_offsets, clone, bind at 1 2. unfold read at 1. rewrite Ht.
  unfold alloc.
  unfold getitem_slice0, bind at 1 2. rewrite read_last. unfold lift at 1.
  unfold slice0 at 1. rewrite Hs, py_slice_init.
  unfold bind at 1 2. rewrite read_last. unfold lift at 1.
  unfold slice0 at 1. rewrite Hs, py_slice_tail by exact Hn.
  unfold bind at 1. unfold lift at 1. unfold tsub.
  assert (SN : forall lo, shape (narrow 0 lo (n - 1) old) = (n - 1)%nat :: s).
  { intros lo. unfold narrow. rewrite Hs. reflexivity. }
  rewrite tmap2_same by (rewrite !SN; reflexivity). rewrite SN.
  unfold setitem_slice, bind at 1 2 3. rewrite read_last. unfold lift at 1.
  unfold setitem_slice0. rewrite Hs, py_slice_tail by exact Hn.
  rewrite shape_tabulate, broadcast_shapes_refl.
  destruct (list_eq_dec Nat.eq_dec ((n - 1)%nat :: s) ((n - 1)%nat :: s))
    as [_|N]; [|congruence].
  rewrite write_last.
  unfold setitem_fill, bind at 1 2 3. rewrite read_last. unfold lift at 1.
  unfold setitem_fill0. rewrite shape_tabulate.
  assert (Hnorm : norm_dim 0 n = Some 0%nat).
  { unfold norm_dim. cbn [Z.ltb Z.compare Z.leb andb].
    destruct (Z.ltb_spec 0 (Z.of_nat n)); [reflexivity | lia]. }
  rewrite Hnorm. rewrite write_last. unfold ret. f_equal. f_equal. f_equal.
  apply tabulate_ext. intros idx Hv.
  inversion Hv as [|i n' r s' Hi Hr]; subst.
  destruct (Nat.eqb_spec i 0) as [->|Hi0]; [reflexivity|].
  rewrite get_tabulate by exact Hv.
  assert (Hin : ((1 <=? i) && (i <? 1 + (n - 1)))%nat = true).
  { apply andb_true_intro. split; [apply Nat.leb_le | apply Nat.ltb_lt]; lia. }
  rewrite Hin.
  assert (Hv1 : valid_idx ((n - 1)%nat :: s) ((i - 1)%nat :: r)).
  { constructor; [lia | exact Hr]. }
  rewrite bget_same by exact Hv1.
  rewrite get_tabulate by exact Hv1.
  unfold narrow. rewrite Hs. cbn [set_nth firstn skipn app].
  rewrite !get_tabulate by exact Hv1.
  cbn [nth set_nth firstn skipn app].
  replace (i - 1 + 0)%nat with (i - 1)%nat by lia.
  replace (i - 1 + 1)%nat with i by lia.
  reflexivity.
Qed.

(** C1.  The clone of a time tensor of [n >= 1] steps holds 0 at step 0 and
    [old[i-1] - old[i]] at every later step [i]; the steps [0, 1, 3, 6]
    become [0, -1, -2, -3]. *)
Theorem time_offsets_elapsed :
  (forall (t : loc) (h : heap) (old : tensor R) (n : nat) (s : list nat),
     nth_error h t = Some old -> shape old = n :: s -> (1 <= n)%nat ->
     exists new : tensor R,
       time_offsets t h = (Ok (length h), h ++ [new])
       /\ shape new = n :: s
       /\ (forall r, valid_idx s r -> get new (0%nat :: r) = 0)
       /\ (forall i r, (1 <= i < n)%nat -> valid_idx s r ->
             get new (i :: r)
             = get old ((i - 1)%nat :: r) - get old (i :: r)))
  /\
  time_offsets 0%nat [mkTensor [4]%nat [0; 1; 3; 6]]
  = (Ok 1%nat,
     [mkTensor [4]%nat [0; 1; 3; 6]; mkTensor [4]%nat [0; -1; -2; -3]]).
Proof.
  split.
  - intros t h old n s Ht Hs Hn.
    eexists. split; [apply time_offsets_run; eassumption|].
    split; [reflexivity|]. split.
    + intros r Hr.
      rewrite get_tabulate by (constructor; [lia | exact Hr]). reflexivity.
    + intros i r Hi Hr.
      rewrite get_tabulate by (constructor; [lia | exact Hr]).
      destruct (Nat.eqb_spec i 0); [lia | reflexivity].
  - rewrite (@time_offsets_run 0%nat _ (mkTensor [4]%nat [0; 1; 3; 6]) 4 [])
      by (try reflexivity; lia).
    unfold tabulate, get.
    cbn [shape data indices flat_map seq map app ravel Nat.ltb Nat.leb numel
         fold_right Nat.mul Nat.add Nat.sub Nat.eqb nth length].
    repeat (f_equal; try lra).
Qed.

Lemma time_offsets_elapsed_witness :
  exists new : tensor R,
    time_offsets 1%nat [scalar 7; mkTensor [3; 1]%nat [2; 5; 9]]
    = (Ok 2%nat, [scalar 7; mkTensor [3; 1]%nat [2; 5; 9]] ++ [new])
    /\ get new [0; 0]%nat = 0
    /\ get new [2; 0]%nat = 5 - 9.
Proof.
  destruct (proj1 time_offsets_elapsed 1%nat
              [scalar 7; mkTensor [3; 1]%nat [2; 5; 9]]
              (mkTensor [3; 1]%nat [2; 5; 9]) 3%nat [1]%nat)
    as (new & Hrun & _ & H0 & Hi).
  - reflexivity.
  - reflexivity.
  - lia.
  - exists new. split; [exact Hrun|]. split.
    + apply H0. repeat constructor.
    + apply (Hi 2%nat [0]%nat); [lia | repeat constructor].
Defined.

(** ** The frame of the encoder *)

Lemma getitem_slice0_last (h : heap) (v : tensor R) (a b : option Z) :
  snd (getitem_slice0 (length h) a b (h ++ [v])) = h ++ [v].
Proof.
  unfold getitem_slice0, bind. rewrite read_last. reflexivity.
Qed.

Lemma setitem_slice_last (h : heap) (v d : tensor R) (a b : option Z) :
  exists w, snd (setitem_slice (length h) a b d (h ++ [v])) = h ++ [w].
Proof.
  unfold setitem_slice, bind. rewrite read_last. unfold lift.
  destruct (setitem_slice0 a b d v) as [new|e].
  - rewrite write_last. eexists. reflexivity.
  - eexists. reflexivity.
Qed.

Lemma setitem_fill_last (h : heap) (v : tensor R) (i : Z) (c : R) :
  exists w, snd (setitem_fill (length h) i c (h ++ [v])) = h ++ [w].
Proof.
  unfold setitem_fill, bind. rewrite read_last. unfold lift.
  destruct (setitem_fill0 i c v) as [new|e].
  - rewrite write_last. eexists. reflexivity.
  - eexists. reflexivity.
Qed.

(** Whatever the shape of the time tensor and whether or not an exception
    is raised, the heap that [time_offsets] leaves is the heap it found
    followed by the clone. *)
Lemma time_offsets_heap (t : loc) (h : heap) (old : tensor R) :
  nth_error h t = Some old ->
  exists c, snd (time_offsets t h) = h ++ [c].
Proof.
  intros Ht.
  unfold time_offsets, clone, bind at 1 2. unfold read at 1. rewrite Ht.
  unfold alloc.
  unfold bind at 1.
  pose proof (getitem_slice0_last h old None (Some (-1)%Z)) as G1.
  destruct (getitem_slice0 (length h) None (Some (-1)%Z) (h ++ [old]))
    as [[a|e] h1]; simpl in G1; subst h1; [|eexists; reflexivity].
  unfold bind at 1.
  pose proof (getitem_slice0_last h old (Some 1%Z) None) as G2.
  destruct (getitem_slice0 (length h) (Some 1%Z) None (h ++ [old]))
    as [[b|e] h1]; simpl in G2; subst h1; [|eexists; reflexivity].
  unfold bind at 1. unfold lift at 1.
  destruct (tsub a b) as [d|e]; [|eexists; reflexivity].
  unfold bind at 1.
  destruct (setitem_slice_last h old d (Some 1%Z) None) as [w1 S1].
  destruct (setitem_slice (length h) (Some 1%Z) None d (h ++ [old]))
    as [[u|e] h1]; simpl in S1; subst h1; [|eexists; reflexivity].
  unfold bind at 1.
  destruct (setitem_fill_last h w1 0%Z 0) as [w2 S2].
  destruct (setitem_fill (length h) 0 0 (h ++ [w1]))
    as [[u'|e] h1]; simpl in S2; subst h1; eexists; reflexivity.
Qed.

Lemma reads_only_ret {A} (a : A) : reads_only (ret a).
Proof. intros h. reflexivity. Qed.

Lemma reads_only_lift {A} (r : result A) : reads_only (lift r).
Proof. intros h. reflexivity. Qed.

Lemma reads_only_read (l : loc) : reads_only (read l).
Proof. intros h. unfold read. destruct (nth_error h l); reflexivity. Qed.

Lemma reads_only_bind {A B} (m : M A) (k : A -> M B) :
  reads_only m -> (forall a, reads_only (k a)) -> reads_only (bind m k).
Proof.
  intros Hm Hk h. unfold bind. specialize (Hm h).
  destruct (m h) as [[a|e] h1]; simpl in Hm; subst h1.
  - apply Hk.
  - reflexivity.
Qed.

Lemma bind_reads_only {A B} (m : M A) (k : A -> M B) (h : heap) :
  (forall a, reads_only (k a)) -> snd (bind m k h) = snd (m h).
Proof.
  intros Hk. unfold bind. destruct (m h) as [[a|e] h1]; simpl.
  - apply Hk.
  - reflexivity.
Qed.

Section Frame.

Variable NNModule : Type.
Variable call_rnn : NNModule -> tensor R -> result (tensor R * tensor R).
Variable call_gru_d : NNModule -> tensor R -> result (tensor R * tensor R).
Variable call_linear : NNModule -> tensor R -> result (tensor R).

(** After the time offsets the forward pass only reads the heap. *)
Lemma RNNEncoder_forward_heap (self : RNNEncoder NNModule) (x t : loc)
    (h : heap) :
  snd (RNNEncoder_forward call_rnn call_gru_d call_linear self x t h)
  = snd (time_offsets t h).
Proof.
  unfold RNNEncoder_forward.
  apply bind_reads_only. intros t'.
  repeat (apply reads_only_bind; [|intros ?]);
    auto using reads_only_read, reads_only_lift, reads_only_ret.
Qed.

(** C9.  The forward pass of the encoder leaves the observation tensor and
    the time tensor of its caller as they were, whether it returns or
    raises: the only change to the heap is the new clone of [t]. *)
Theorem RNNEncoder_forward_frame (self : RNNEncoder NNModule)
    (x t : loc) (h : heap) (vx vt : tensor R) :
  nth_error h x = Some vx -> nth_error h t = Some vt ->
  let h' :=
    snd (RNNEncoder_forward call_rnn call_gru_d call_linear self x t h) in
  nth_error h' x = Some vx
  /\ nth_error h' t = Some vt
  /\ exists c, h' = h ++ [c].
Proof.
  intros Hx Ht h'. subst h'. rewrite RNNEncoder_forward_heap.
  destruct (time_offsets_heap t h Ht) as [c ->].
  split; [|split].
  - rewrite nth_error_app1 by (apply nth_error_Some; congruence). exact Hx.
  - rewrite nth_error_app1 by (apply nth_error_Some; congruence). exact Ht.
  - exists c. reflexivity.
Qed.

End Frame.

(** ** The theorems on a small model

    A model with one feature and one latent dimension whose recurrent cell
    returns its input as the hidden state, whose linear layers are the
    identity and whose integrator adds the query times to the latent
    state. *)

Lemma RNNEncoder_forward_frame_witness :
  let x := mkTensor [2; 1; 1]%nat [10; 20] in
  let t := mkTensor [2; 1; 1]%nat [0; 3] in
  let self := mkRNNEncoder 1 1 1 "gru" ["gru"; "grud"]%string 0%nat 1%nat in
  let rnn := fun (_ : nat) (v : tensor R) => Ok (v, v) in
  let linear := fun (_ : nat) (v : tensor R) => Ok v in
  let h' := snd (RNNEncoder_forward rnn rnn linear self 0%nat 1%nat [x; t]) in
  nth_error h' 0%nat = Some x /\ nth_error h' 1%nat = Some t
  /\ exists c, h' = [x; t] ++ [c].
Proof.
  intros x t self rnn linear.
  apply (@RNNEncoder_forward_frame nat rnn rnn linear self 0%nat 1%nat
           [x; t] x t); reflexivity.
Defined.

Lemma ODEVAE_forward_MAP_witness :
  let x := mkTensor [2; 1; 1]%nat [10; 20] in
  let t := mkTensor [2; 1; 1]%nat [0; 3] in
  let enc := mkRNNEncoder 1 1 1 "gru" ["gru"; "grud"]%string 0%nat 1%nat in
  let dec := mkNeuralODEDecoder 1 1 1 2%nat 3%nat 4%nat in
  let self := mkODEVAE 1 1 1 "gru" enc dec in
  let rnn := fun (_ : nat) (v : tensor R) => Ok (v, v) in
  let linear := fun (_ : nat) (v : tensor R) => Ok v in
  let integrate := fun (_ : nat) (z0 ts : tensor R) => tadd z0 ts in
  exists x_p z mu logvar h',
    ODEVAE_forward rnn rnn linear integrate self (scalar 0)
      0%nat 1%nat 1%nat true [x; t]
    = (Ok (x_p, z, mu, logvar), h')
    /\ z = mu.
Proof.
  intros x t enc dec self rnn linear integrate.
  destruct (ODEVAE_forward rnn rnn linear integrate self (scalar 0)
              0%nat 1%nat 1%nat true [x; t])
    as [[[[[x_p z] mu] logvar]|e] h'] eqn:E.
  - exists x_p, z, mu, logvar, h'. split; [reflexivity|].
    apply (proj2 (ODEVAE_forward_MAP rnn rnn linear integrate self (scalar 0)
                    0%nat 1%nat 1%nat [x; t]) x_p z mu logvar h' E).
  - exfalso. vm_compute in E. discriminate E.
Defined.

(* ================================================================= *)
(** * Part III: further properties of the code *)
(* ================================================================= *)

(** ** Means of finite values *)

Lemma all_finite_In (P : R -> Prop) (l : list (option R)) :
  (forall o, In o l -> exists v, o = Some v /\ P v) ->
  exists l', all_finite l = Some l' /\ length l' = length l /\ Forall P l'.
Proof.
  induction l as [|o l IH]; intros H.
  - exists []. repeat split. constructor.
  - destruct (H o (or_introl eq_refl)) as (v & -> & Pv).
    destruct IH as (l' & E & L & F); [intros o' Ho'; apply H; right; exact Ho'|].
    exists (v :: l'). simpl. rewrite E, L. repeat split. constructor; assumption.
Qed.

Lemma Rsum_bounds (lo hi : R) (l : list R) :
  Forall (fun v => lo <= v <= hi) l ->
  INR (length l) * lo <= Rsum l <= INR (length l) * hi.
Proof.
  induction 1 as [|v l Hv _ IH].
  - simpl. lra.
  - cbn [Rsum fold_right length]. fold (Rsum l). rewrite S_INR. lra.
Qed.

Lemma mean_list_bounds (lo hi : R) (l : list R) :
  l <> [] -> Forall (fun v => lo <= v <= hi) l ->
  exists m, mean_list l = Some m /\ lo <= m <= hi.
Proof.
  intros Hne HF. pose proof (Rsum_bounds HF) as [Hlo Hhi].
  destruct l as [|v l]; [congruence|].
  exists (Rsum (v :: l) / INR (length (v :: l))). split; [reflexivity|].
  set (n := INR (length (v :: l))) in *.
  assert (Hn : 0 < n) by (apply lt_0_INR; simpl; lia).
  split.
  - apply Rmult_le_reg_r with n; [exact Hn|].
    unfold Rdiv. rewrite Rmult_assoc, Rinv_l by lra. lra.
  - apply Rmult_le_reg_r with n; [exact Hn|].
    unfold Rdiv. rewrite Rmult_assoc, Rinv_l by lra. lra.
Qed.

(** The mean of a table of finite values: it is finite when the table has
    an element, and lies between any two bounds of the values. *)
Lemma tmean_fin_tabulate_bounds (lo hi : R) (s : list nat)
    (f : list nat -> option R) :
  (0 < numel s)%nat ->
  (forall idx, valid_idx s idx -> exists v, f idx = Some v /\ lo <= v <= hi) ->
  exists m, tmean_fin (tabulate s f) = Some m /\ lo <= m <= hi.
Proof.
  intros Hn Hf. unfold tmean_fin, tabulate; cbn [data].
  destruct (@all_finite_In (fun v => lo <= v <= hi) (map f (indices s)))
    as (l & E & L & F).
  { intros o Ho. apply in_map_iff in Ho. destruct Ho as (idx & <- & Hin).
    apply Hf, In_indices, Hin. }
  rewrite E. apply mean_list_bounds; [|exact F].
  intros ->. simpl in L. rewrite length_map, length_indices in L. lia.
Qed.

(** ** [kaggle_smape] *)

Lemma kaggle_term_bounds (a b : R) :
  exists v, kaggle_term a b = Some v /\ 0 <= v <= 1.
Proof.
  unfold kaggle_term, fdiv.
  destruct (Req_dec_T (Rabs a + Rabs b) 0) as [E|N].
  - exists 0. split; [reflexivity | lra].
  - eexists. split; [reflexivity|].
    pose proof (Rabs_pos a). pose proof (Rabs_pos b).
    pose proof (Rabs_pos (b - a)).
    assert (Hd : 0 < Rabs a + Rabs b) by lra.
    assert (Ht : Rabs (b - a) <= Rabs a + Rabs b).
    { unfold Rminus. eapply Rle_trans; [apply Rabs_triang|].
      rewrite Rabs_Ropp. lra. }
    split.
    + apply Rmult_le_reg_r with (Rabs a + Rabs b); [exact Hd|].
      unfold Rdiv. rewrite Rmult_assoc, Rinv_l by lra. lra.
    + apply Rmult_le_reg_r with (Rabs a + Rabs b); [exact Hd|].
      unfold Rdiv. rewrite Rmult_assoc, Rinv_l by lra. lra.
Qed.

(** X1.  On two tensors of one shape with at least one element
    [kaggle_smape] is a finite number between 0 and 200: the zero guard
    leaves no division by zero in the result. *)
Theorem kaggle_smape_bounds (dev : device) (y_true y_pred : tensor R) :
  wf y_true -> wf y_pred -> shape y_pred = shape y_true ->
  (0 < numel (shape y_true))%nat ->
  exists r, kaggle_smape dev y_true y_pred = Ok (Some r) /\ 0 <= r <= 200.
Proof.
  intros Wt Wp Hs Hn. rewrite kaggle_smape_elementwise by assumption.
  destruct (@tmean_fin_tabulate_bounds 0 1 (shape y_true)
              (fun idx => kaggle_term (get y_true idx) (get y_pred idx)) Hn)
    as (m & -> & Hm).
  { intros idx _. apply kaggle_term_bounds. }
  exists (200 * m). split; [reflexivity | lra].
Qed.

Lemma kaggle_smape_bounds_witness :
  exists r,
    kaggle_smape cpu (mkTensor [2]%nat [0; 4]) (mkTensor [2]%nat [0; -1])
    = Ok (Some r) /\ 0 <= r <= 200.
Proof.
  apply (@kaggle_smape_bounds cpu (mkTensor [2]%nat [0; 4])
           (mkTensor [2]%nat [0; -1])); try reflexivity.
  simpl. lia.
Defined.

Lemma kaggle_term_sym (a b : R) : kaggle_term a b = kaggle_term b a.
Proof.
  unfold kaggle_term. rewrite (Rplus_comm (Rabs a)), (Rabs_minus_sym b a).
  reflexivity.
Qed.

(** X2.  [kaggle_smape] is symmetric in its two tensors. *)
Theorem kaggle_smape_sym (dev : device) (y_true y_pred : tensor R) :
  wf y_true -> wf y_pred -> shape y_pred = shape y_true ->
  kaggle_smape dev y_true y_pred = kaggle_smape dev y_pred y_true.
Proof.
  intros Wt Wp Hs.
  rewrite !kaggle_smape_elementwise by first [assumption | symmetry; assumption].
  rewrite Hs. do 3 f_equal. apply tabulate_ext. intros idx _.
  apply kaggle_term_sym.
Qed.

Lemma kaggle_smape_sym_witness :
  kaggle_smape cpu (mkTensor [2]%nat [1; 4]) (mkTensor [2]%nat [3; -1])
  = kaggle_smape cpu (mkTensor [2]%nat [3; -1]) (mkTensor [2]%nat [1; 4]).
Proof.
  apply (@kaggle_smape_sym cpu (mkTensor [2]%nat [1; 4])
           (mkTensor [2]%nat [3; -1])); reflexivity.
Defined.

Lemma kaggle_term_scale (c a b : R) :
  c <> 0 -> kaggle_term (c * a) (c * b) = kaggle_term a b.
Proof.
  intros Hc. unfold kaggle_term, fdiv.
  replace (c * b - c * a) with (c * (b - a)) by lra.
  rewrite !Rabs_mult.
  pose proof (Rabs_pos_lt c Hc) as Hpos.
  replace (Rabs c * Rabs a + Rabs c * Rabs b)
    with (Rabs c * (Rabs a + Rabs b)) by lra.
  destruct (Req_dec_T (Rabs a + Rabs b) 0) as [E|N].
  - rewrite E, Rmult_0_r.
    destruct (Req_dec_T 0 0) as [_|N0]; [reflexivity | lra].
  - destruct (Req_dec_T (Rabs c * (Rabs a + Rabs b)) 0) as [E|_].
    + apply Rmult_integral in E. destruct E; lra.
    + f_equal. field. split; lra.
Qed.

(** X3.  [kaggle_smape] does not change when both tensors are multiplied
    by one non-zero number. *)
Theorem kaggle_smape_scale (dev : device) (c : R)
    (y_true y_pred : tensor R) :
  c <> 0 -> wf y_true -> wf y_pred -> shape y_pred = shape y_true ->
  kaggle_smape dev (tmap (Rmult c) y_true) (tmap (Rmult c) y_pred)
  = kaggle_smape dev y_true y_pred.
Proof.
  intros Hc Wt Wp Hs.
  rewrite !kaggle_smape_elementwise
    by (rewrite ?shape_tmap; auto using wf_tmap).
  rewrite shape_tmap. do 3 f_equal. apply tabulate_ext. intros idx Hv.
  rewrite !get_tmap by (rewrite ?Hs; assumption).
  apply kaggle_term_scale, Hc.
Qed.

Lemma kaggle_smape_scale_witness :
  kaggle_smape cpu (tmap (Rmult 3) (mkTensor [2]%nat [1; 4]))
                   (tmap (Rmult 3) (mkTensor [2]%nat [3; -1]))
  = kaggle_smape cpu (mkTensor [2]%nat [1; 4]) (mkTensor [2]%nat [3; -1]).
Proof.
  apply (@kaggle_smape_scale cpu 3 (mkTensor [2]%nat [1; 4])
           (mkTensor [2]%nat [3; -1])); try reflexivity.
  lra.
Defined.

(** ** [differentiable_smape] *)

Lemma tmean_fin_tabulate_Some (s : list nat) (g : list nat -> R) :
  tmean_fin (tabulate s (fun idx => Some (g idx)))
  = mean_list (map g (indices s)).
Proof.
  unfold tmean_fin, tabulate; cbn [data].
  rewrite <- (map_map g Some), all_finite_Some. reflexivity.
Qed.

Lemma differentiable_smape_elementwise (dev : device)
    (y_true y_pred : tensor R) (epsilon : R) (s : list nat) :
  wf y_true -> wf y_pred -> 0 <= epsilon ->
  broadcast_shapes (shape y_true) (shape y_pred) = Some s ->
  differentiable_smape dev y_true y_pred epsilon
  = Ok (mean_list
          (map (fun idx =>
                  smooth_ratio epsilon (bget y_true idx) (bget y_pred idx))
               (indices s))).
Proof.
  intros Wt Wp He Hs. unfold differentiable_smape.
  rewrite (smape_denominator_elementwise epsilon Wt Wp Hs). cbn [rbind].
  unfold tsub, tdiv, tabs.
  rewrite (tmap2_broadcast _ _ _ (s := s))
    by (rewrite broadcast_shapes_sym; exact Hs).
  cbn [rbind]. rewrite tmap_tabulate.
  rewrite tmap2_same by reflexivity. cbn [rbind].
  rewrite tmap_tabulate, shape_tabulate.
  rewrite <- tmean_fin_tabulate_Some. do 2 f_equal.
  apply tabulate_ext. intros idx Hv.
  rewrite !get_tabulate by exact Hv.
  unfold fdiv, smooth_ratio.
  destruct (Req_dec_T _ 0) as [E|_]; [|reflexivity].
  exfalso.
  pose proof (half_le_Rmax
                (Rabs (bget y_true idx) + Rabs (bget y_pred idx) + epsilon)
                He).
  lra.
Qed.

Lemma Rabs_diff_le (a b : R) : Rabs (b - a) <= Rabs a + Rabs b.
Proof.
  unfold Rminus. eapply Rle_trans; [apply Rabs_triang|].
  rewrite Rabs_Ropp. lra.
Qed.

Lemma smooth_ratio_bounds (epsilon a b : R) :
  0 <= epsilon -> 0 <= smooth_ratio epsilon a b <= 2.
Proof.
  intros He. unfold smooth_ratio.
  set (d := Rmax (Rabs a + Rabs b + epsilon) (0.5 + epsilon)).
  assert (Hd : 0 < d).
  { pose proof (half_le_Rmax (Rabs a + Rabs b + epsilon) He). subst d. lra. }
  assert (Hn : Rabs (b - a) <= d).
  { pose proof (Rabs_diff_le a b).
    pose proof (Rmax_l (Rabs a + Rabs b + epsilon) (0.5 + epsilon)).
    subst d. lra. }
  pose proof (Rabs_pos (b - a)) as H0.
  assert (Hq : 0 <= Rabs (b - a) / d <= 1).
  { split.
    - apply Rmult_le_reg_r with d; [exact Hd|].
      unfold Rdiv. rewrite Rmult_assoc, Rinv_l by lra. lra.
    - apply Rmult_le_reg_r with d; [exact Hd|].
      unfold Rdiv. rewrite Rmult_assoc, Rinv_l by lra. lra. }
  lra.
Qed.

(** X4.  For [epsilon >= 0] and two well-formed tensors whose shapes
    broadcast to a shape with at least one element,
    [differentiable_smape] is a finite number between 0 and 2. *)
Theorem differentiable_smape_bounds (dev : device)
    (y_true y_pred : tensor R) (epsilon : R) (s : list nat) :
  wf y_true -> wf y_pred -> 0 <= epsilon ->
  broadcast_shapes (shape y_true) (shape y_pred) = Some s ->
  (0 < numel s)%nat ->
  exists r,
    differentiable_smape dev y_true y_pred epsilon = Ok (Some r)
    /\ 0 <= r <= 2.
Proof.
  intros Wt Wp He Hs Hn.
  rewrite (differentiable_smape_elementwise dev Wt Wp He Hs).
  destruct (@mean_list_bounds 0 2
              (map (fun idx =>
                      smooth_ratio epsilon (bget y_true idx) (bget y_pred idx))
                   (indices s))) as (m & -> & Hm).
  - intros E. apply (f_equal (@length R)) in E.
    rewrite length_map, length_indices in E. simpl in E. lia.
  - apply Forall_forall. intros v Hv. apply in_map_iff in Hv.
    destruct Hv as (idx & <- & _). apply smooth_ratio_bounds, He.
  - exists m. split; [reflexivity | exact Hm].
Qed.

Lemma differentiable_smape_bounds_witness :
  exists r,
    differentiable_smape cpu (mkTensor [2]%nat [0; 4]) (mkTensor [1]%nat [-1])
      0.1
    = Ok (Some r) /\ 0 <= r <= 2.
Proof.
  apply (@differentiable_smape_bounds cpu (mkTensor [2]%nat [0; 4])
           (mkTensor [1]%nat [-1]) 0.1 [2]%nat); try reflexivity.
  - lra.
  - simpl. lia.
Defined.

Lemma smooth_ratio_same (epsilon a : R) :
  0 <= epsilon -> smooth_ratio epsilon a a = 0.
Proof.
  intros He. unfold smooth_ratio.
  replace (a - a) with 0 by lra. rewrite Rabs_R0. unfold Rdiv. lra.
Qed.

(** X5.  For [epsilon >= 0], [differentiable_smape] of a well-formed tensor
    with at least one element against itself is 0. *)
Theorem differentiable_smape_self (dev : device) (y : tensor R)
    (epsilon : R) :
  wf y -> 0 <= epsilon -> (0 < numel (shape y))%nat ->
  differentiable_smape dev y y epsilon = Ok (Some 0).
Proof.
  intros Wy He Hn.
  rewrite (differentiable_smape_elementwise dev Wy Wy He
             (broadcast_shapes_refl (shape y))).
  f_equal. apply mean_list_zero.
  - intros E. apply (f_equal (@length R)) in E.
    rewrite length_map, length_indices in E. simpl in E. lia.
  - apply Forall_forall. intros v Hv. apply in_map_iff in Hv.
    destruct Hv as (idx & <- & _). apply smooth_ratio_same, He.
Qed.

Lemma differentiable_smape_self_witness :
  differentiable_smape cpu (mkTensor [3]%nat [0; 4; -2])
    (mkTensor [3]%nat [0; 4; -2]) 0.1
  = Ok (Some 0).
Proof.
  apply (@differentiable_smape_self cpu (mkTensor [3]%nat [0; 4; -2]) 0.1).
  - reflexivity.
  - lra.
  - simpl. lia.
Defined.

Lemma kaggle_term_ratio (a b : R) :
  kaggle_term a b = Some (smape_ratio a b).
Proof.
  unfold kaggle_term, smape_ratio, fdiv.
  destruct (Req_dec_T (Rabs a + Rabs b) 0); reflexivity.
Qed.

Lemma smooth_ratio_le (epsilon a b : R) :
  0 <= epsilon -> smooth_ratio epsilon a b <= 2 * smape_ratio a b.
Proof.
  intros He. unfold smooth_ratio, smape_ratio.
  pose proof (Rabs_pos a) as Ha. pose proof (Rabs_pos b) as Hb.
  pose proof (Rabs_pos (b - a)) as Hn.
  pose proof (Rabs_diff_le a b) as Ht.
  destruct (Req_dec_T (Rabs a + Rabs b) 0) as [E|N].
  - replace (Rabs (b - a)) with 0 by lra. unfold Rdiv. lra.
  - set (d := Rmax (Rabs a + Rabs b + epsilon) (0.5 + epsilon)).
    assert (Hs : 0 < Rabs a + Rabs b) by lra.
    assert (Hd : Rabs a + Rabs b <= d).
    { pose proof (Rmax_l (Rabs a + Rabs b + epsilon) (0.5 + epsilon)).
      subst d. lra. }
    assert (Hi : / d <= / (Rabs a + Rabs b))
      by (apply Rinv_le_contravar; assumption).
    unfold Rdiv. nra.
Qed.

Lemma Rsum_map_le {A} (f g : A -> R) (l : list A) :
  (forall a, In a l -> f a <= g a) -> Rsum (map f l) <= Rsum (map g l).
Proof.
  induction l as [|a l IH]; intros H; simpl; [lra|].
  pose proof (H a (or_introl eq_refl)).
  assert (Rsum (map f l) <= Rsum (map g l))
    by (apply IH; intros; apply H; right; assumption).
  unfold Rsum in *. lra.
Qed.

(** X6.  On two well-formed tensors of one shape with at least one element
    and for [epsilon >= 0], a hundred times [differentiable_smape] is at
    most [kaggle_smape]: the smoothing only lowers the error. *)
Theorem differentiable_smape_le_kaggle_smape (dev : device)
    (y_true y_pred : tensor R) (epsilon : R) :
  wf y_true -> wf y_pred -> shape y_pred = shape y_true ->
  0 <= epsilon -> (0 < numel (shape y_true))%nat ->
  exists d k,
    differentiable_smape dev y_true y_pred epsilon = Ok (Some d)
    /\ kaggle_smape dev y_true y_pred = Ok (Some k)
    /\ 100 * d <= k.
Proof.
  intros Wt Wp Hs He Hn.
  assert (Hb : broadcast_shapes (shape y_true) (shape y_pred)
               = Some (shape y_true))
    by (rewrite Hs; apply broadcast_shapes_refl).
  rewrite (differentiable_smape_elementwise dev Wt Wp He Hb).
  rewrite kaggle_smape_elementwise by assumption.
  rewrite (@tabulate_ext _ (shape y_true) _
             (fun idx => Some (smape_ratio (get y_true idx) (get y_pred idx))))
    by (intros; apply kaggle_term_ratio).
  rewrite tmean_fin_tabulate_Some.
  destruct (indices (shape y_true)) as [|i0 l] eqn:E.
  { apply (f_equal (@length (list nat))) in E.
    rewrite length_indices in E. simpl in E. lia. }
  rewrite <- E. unfold mean_list.
  destruct (map (fun idx => smooth_ratio epsilon (bget y_true idx)
                              (bget y_pred idx)) (indices (shape y_true)))
    as [|v1 l1] eqn:E1;
    [rewrite E in E1; discriminate E1|].
  destruct (map (fun idx => smape_ratio (get y_true idx) (get y_pred idx))
                (indices (shape y_true))) as [|v2 l2] eqn:E2;
    [rewrite E in E2; discriminate E2|].
  eexists. eexists. split; [reflexivity|]. split; [reflexivity|].
  rewrite <- E1, <- E2, !length_map.
  set (n := INR (length (indices (shape y_true)))).
  assert (Hpos : 0 < n).
  { subst n. apply lt_0_INR. rewrite length_indices. exact Hn. }
  assert (Hsum :
    Rsum (map (fun idx => smooth_ratio epsilon (bget y_true idx)
                            (bget y_pred idx)) (indices (shape y_true)))
    <= 2 * Rsum (map (fun idx => smape_ratio (get y_true idx) (get y_pred idx))
                     (indices (shape y_true)))).
  { eapply Rle_trans.
    - apply Rsum_map_le with
        (g := fun idx => 2 * smape_ratio (get y_true idx) (get y_pred idx)).
      intros idx Hin. apply In_indices in Hin.
      rewrite !bget_same by (rewrite ?Hs; exact Hin).
      apply smooth_ratio_le, He.
    - clear. induction (indices (shape y_true)) as [|i l IH]; simpl; [lra|].
      unfold Rsum in *. lra. }
  assert (Hinv : 0 < / n) by (apply Rinv_0_lt_compat; exact Hpos).
  unfold Rdiv. nra.
Qed.

Lemma differentiable_smape_le_kaggle_smape_witness :
  exists d k,
    differentiable_smape cpu (mkTensor [2]%nat [0; 4])
      (mkTensor [2]%nat [1; -1]) 0.1 = Ok (Some d)
    /\ kaggle_smape cpu (mkTensor [2]%nat [0; 4]) (mkTensor [2]%nat [1; -1])
       = Ok (Some k)
    /\ 100 * d <= k.
Proof.
  apply (@differentiable_smape_le_kaggle_smape cpu (mkTensor [2]%nat [0; 4])
           (mkTensor [2]%nat [1; -1]) 0.1); try reflexivity.
  - lra.
  - simpl. lia.
Defined.

(** ** [rounded_smape] *)

Lemma rounded_term_same (a : R) : rounded_term a a = Some 0.
Proof.
  unfold rounded_term, fdiv, isub, iabs.
  rewrite Z.sub_diag.
  replace (wrap32 (Z.abs (wrap32 0))) with 0%Z by reflexivity.
  destruct (Req_dec_T (Rabs a + Rabs a) 0) as [|N]; [reflexivity|].
  f_equal. unfold Rdiv. lra.
Qed.

(** X7.  [rounded_smape] of a well-formed tensor with at least one element
    against itself is 0, also where an element does not fit in 32 bits. *)
Theorem rounded_smape_self (dev : device) (y : tensor R) :
  wf y -> (0 < numel (shape y))%nat ->
  rounded_smape dev y y = Ok (Some 0).
Proof.
  intros Wy Hn. rewrite rounded_smape_elementwise by auto.
  rewrite (@tabulate_ext _ (shape y) _ (fun _ => Some 0))
    by (intros; apply rounded_term_same).
  rewrite tmean_fin_zeros.
  destruct (Nat.eqb_spec (numel (shape y)) 0); [lia | reflexivity].
Qed.

Lemma rounded_smape_self_witness :
  rounded_smape cpu (mkTensor [2]%nat [0; 5000000000])
                    (mkTensor [2]%nat [0; 5000000000])
  = Ok (Some 0).
Proof.
  apply (@rounded_smape_self cpu (mkTensor [2]%nat [0; 5000000000])).
  - reflexivity.
  - simpl. lia.
Defined.

(** ** [mape] *)

Lemma mape_elementwise (dev : device) (y_true y_pred : tensor R) :
  wf y_true -> wf y_pred -> shape y_pred = shape y_true ->
  mape dev y_true y_pred
  = Ok (option_map (fun v => v * 100)
          (tmean_fin (tabulate (shape y_true)
             (fun idx => mape_term (get y_true idx) (get y_pred idx))))).
Proof.
  intros Wt Wp Hs. unfold mape, tsub, tdiv, tabs.
  rewrite tmap2_same by (symmetry; exact Hs). cbn [rbind].
  rewrite tmap_tabulate.
  rewrite tmap2_same by (simpl; congruence). cbn [rbind].
  rewrite shape_tabulate, Hs.
  do 3 f_equal. apply tabulate_ext. intros idx Hv.
  rewrite get_tabulate by exact Hv. reflexivity.
Qed.

Lemma all_finite_None (l : list (option R)) :
  In None l -> all_finite l = None.
Proof.
  induction l as [|o l IH]; intros H; [contradiction|].
  destruct o as [v|]; [|reflexivity].
  destruct H as [H|H]; [discriminate|]. simpl. rewrite IH by exact H.
  reflexivity.
Qed.

Lemma tmean_fin_tabulate_None (s idx : list nat)
    (f : list nat -> option R) :
  valid_idx s idx -> f idx = None -> tmean_fin (tabulate s f) = None.
Proof.
  intros Hv Hf. unfold tmean_fin, tabulate; cbn [data].
  rewrite all_finite_None; [reflexivity|].
  apply in_map_iff. exists idx. split; [exact Hf|].
  apply valid_In_indices, Hv.
Qed.

(** X8.  [mape] on two well-formed tensors of one shape: where a target is
    0 the result is not a finite number; where no target is 0 and there is
    at least one element it is finite. *)
Theorem mape_zero_target (dev : device) (y_true y_pred : tensor R) :
  wf y_true -> wf y_pred -> shape y_pred = shape y_true ->
  ((exists idx, valid_idx (shape y_true) idx /\ get y_true idx = 0) ->
   mape dev y_true y_pred = Ok None)
  /\
  ((0 < numel (shape y_true))%nat ->
   (forall idx, valid_idx (shape y_true) idx -> get y_true idx <> 0) ->
   exists r, mape dev y_true y_pred = Ok (Some r)).
Proof.
  intros Wt Wp Hs. rewrite mape_elementwise by assumption. split.
  - intros (idx & Hv & Hz).
    rewrite tmean_fin_tabulate_None with (idx := idx);
      [reflexivity | exact Hv |].
    unfold mape_term, fdiv. rewrite Hz.
    destruct (Req_dec_T 0 0) as [_|N]; [reflexivity | congruence].
  - intros Hn Hnz.
    destruct (@all_finite_In (fun _ => True)
                (map (fun idx => mape_term (get y_true idx) (get y_pred idx))
                     (indices (shape y_true)))) as (l & E & L & _).
    { intros o Ho. apply in_map_iff in Ho. destruct Ho as (idx & <- & Hin).
      apply In_indices in Hin. unfold mape_term, fdiv.
      destruct (Req_dec_T (get y_true idx) 0) as [Z|_];
        [exfalso; exact (Hnz idx Hin Z) | eexists; split; [reflexivity|exact I]]. }
    unfold tmean_fin, tabulate; cbn [data]. rewrite E.
    destruct l as [|v l].
    + simpl in L. rewrite length_map, length_indices in L. lia.
    + eexists. reflexivity.
Qed.

Lemma mape_zero_target_witness :
  mape cpu (mkTensor [2]%nat [2; 0]) (mkTensor [2]%nat [3; 1]) = Ok None
  /\ exists r,
       mape cpu (mkTensor [2]%nat [2; -4]) (mkTensor [2]%nat [3; 1])
       = Ok (Some r).
Proof.
  split.
  - apply (proj1 (@mape_zero_target cpu (mkTensor [2]%nat [2; 0])
                    (mkTensor [2]%nat [3; 1]) eq_refl eq_refl eq_refl)).
    exists [1%nat]. split; [repeat constructor | reflexivity].
  - apply (proj2 (@mape_zero_target cpu (mkTensor [2]%nat [2; -4])
                    (mkTensor [2]%nat [3; 1]) eq_refl eq_refl eq_refl)).
    + simpl. lia.
    + intros idx Hv. inversion Hv as [|i n r s Hi Hr]; subst.
      inversion Hr; subst.
      assert (Hc : i = 0%nat \/ i = 1%nat) by lia.
      destruct Hc as [-> | ->]; unfold get; simpl; lra.
Defined.

Lemma Rsum_nonneg (l : list R) :
  Forall (fun v => 0 <= v) l -> 0 <= Rsum l.
Proof.
  induction 1 as [|v l Hv _ IH]; simpl; [lra|]. unfold Rsum in *. lra.
Qed.

Lemma Rsum_nonpos (l : list R) :
  Forall (fun v => v <= 0) l -> Rsum l <= 0.
Proof.
  induction 1 as [|v l Hv _ IH]; simpl; [lra|]. unfold Rsum in *. lra.
Qed.

Lemma mean_list_Some (l : list R) :
  l <> [] ->
  exists m, mean_list l = Some m /\ m = Rsum l * / INR (length l)
            /\ 0 < / INR (length l).
Proof.
  intros Hne. destruct l as [|v l]; [congruence|].
  eexists. split; [reflexivity|]. split; [reflexivity|].
  apply Rinv_0_lt_compat, lt_0_INR. simpl. lia.
Qed.

Lemma tmean_fin_tabulate_nonneg (s : list nat) (f : list nat -> option R) :
  (0 < numel s)%nat ->
  (forall idx, valid_idx s idx -> exists v, f idx = Some v /\ 0 <= v) ->
  exists m, tmean_fin (tabulate s f) = Some m /\ 0 <= m.
Proof.
  intros Hn Hf. unfold tmean_fin, tabulate; cbn [data].
  destruct (@all_finite_In (fun v => 0 <= v) (map f (indices s)))
    as (l & E & L & F).
  { intros o Ho. apply in_map_iff in Ho. destruct Ho as (idx & <- & Hin).
    apply Hf, In_indices, Hin. }
  rewrite E.
  destruct (@mean_list_Some l) as (m & Em & -> & Hi).
  { intros ->. simpl in L. rewrite length_map, length_indices in L. lia. }
  exists (Rsum l * / INR (length l)). split; [exact Em|].
  pose proof (Rsum_nonneg F). nra.
Qed.

Lemma tmean_fin_tabulate_nonpos (s : list nat) (f : list nat -> option R) :
  (0 < numel s)%nat ->
  (forall idx, valid_idx s idx -> exists v, f idx = Some v /\ v <= 0) ->
  exists m, tmean_fin (tabulate s f) = Some m /\ m <= 0.
Proof.
  intros Hn Hf. unfold tmean_fin, tabulate; cbn [data].
  destruct (@all_finite_In (fun v => v <= 0) (map f (indices s)))
    as (l & E & L & F).
  { intros o Ho. apply in_map_iff in Ho. destruct Ho as (idx & <- & Hin).
    apply Hf, In_indices, Hin. }
  rewrite E.
  destruct (@mean_list_Some l) as (m & Em & -> & Hi).
  { intros ->. simpl in L. rewrite length_map, length_indices in L. lia. }
  exists (Rsum l * / INR (length l)). split; [exact Em|].
  pose proof (Rsum_nonpos F). nra.
Qed.

(** X9.  [mape] divides by the target and not by its absolute value: with
    at least one element, positive targets give a result that is at least
    0 and negative targets one that is at most 0. *)
Theorem mape_sign (dev : device) (y_true y_pred : tensor R) :
  wf y_true -> wf y_pred -> shape y_pred = shape y_true ->
  (0 < numel (shape y_true))%nat ->
  ((forall idx, valid_idx (shape y_true) idx -> 0 < get y_true idx) ->
   exists r, mape dev y_true y_pred = Ok (Some r) /\ 0 <= r)
  /\
  ((forall idx, valid_idx (shape y_true) idx -> get y_true idx < 0) ->
   exists r, mape dev y_true y_pred = Ok (Some r) /\ r <= 0).
Proof.
  intros Wt Wp Hs Hn. rewrite mape_elementwise by assumption.
  assert (Hdiv : forall a b, a <> 0 ->
            mape_term a b = Some (Rabs (b - a) * / a)).
  { intros a b Ha. unfold mape_term, fdiv.
    destruct (Req_dec_T a 0); [contradiction | reflexivity]. }
  split; intros Hsign.
  - destruct (@tmean_fin_tabulate_nonneg (shape y_true)
                (fun idx => mape_term (get y_true idx) (get y_pred idx)) Hn)
      as (m & -> & Hm).
    + intros idx Hv. specialize (Hsign idx Hv).
      rewrite Hdiv by lra. eexists. split; [reflexivity|].
      pose proof (Rabs_pos (get y_pred idx - get y_true idx)).
      pose proof (Rinv_0_lt_compat _ Hsign). nra.
    + exists (m * 100). split; [reflexivity | lra].
  - destruct (@tmean_fin_tabulate_nonpos (shape y_true)
                (fun idx => mape_term (get y_true idx) (get y_pred idx)) Hn)
      as (m & -> & Hm).
    + intros idx Hv. specialize (Hsign idx Hv).
      rewrite Hdiv by lra. eexists. split; [reflexivity|].
      pose proof (Rabs_pos (get y_pred idx - get y_true idx)).
      pose proof (Rinv_lt_0_compat _ Hsign). nra.
    + exists (m * 100). split; [reflexivity | lra].
Qed.

Lemma mape_sign_witness :
  exists r,
    mape cpu (mkTensor [2]%nat [-2; -4]) (mkTensor [2]%nat [3; 1])
    = Ok (Some r) /\ r <= 0.
Proof.
  apply (proj2 (@mape_sign cpu (mkTensor [2]%nat [-2; -4])
                  (mkTensor [2]%nat [3; 1]) eq_refl eq_refl eq_refl
                  ltac:(simpl; lia))).
  intros idx Hv. inversion Hv as [|i n r s Hi Hr]; subst.
  inversion Hr; subst.
  assert (Hc : i = 0%nat \/ i = 1%nat) by lia.
  destruct Hc as [-> | ->]; unfold get; simpl; lra.
Defined.

(** ** [mae] and [mse] *)

Lemma broadcast_shapes_nil_r (s : list nat) : broadcast_shapes s [] = Some s.
Proof.
  unfold broadcast_shapes. cbn [rev].
  assert (E : forall a, broadcast_rev a [] = Some a)
    by (intros a; destruct a; reflexivity).
  rewrite E. cbn [option_map]. rewrite rev_involutive. reflexivity.
Qed.

Lemma bget_scalar {A} `{Dflt A} (c : A) (idx : list nat) :
  bget (scalar c) idx = c.
Proof. reflexivity. Qed.

(** The two errors in log space, element by element, for a factor that is
    a number. *)
Lemma log_error_elementwise
    (g : R -> R) (y_true y_pred : tensor R) (m : R) :
  wf y_true -> wf y_pred -> shape y_pred = shape y_true ->
  (d <- tmap2 (olift2 Rminus) (tmap flog1p y_true) (tmap flog1p y_pred) ;;
   error <- tmap2 oscale (tmap (option_map g) d) (scalar m) ;;
   Ok (tmean_fin error))%result
  = Ok (tmean_fin (tabulate (shape y_true) (fun idx =>
          oscale (option_map g
                    (olift2 Rminus (flog1p (get y_true idx))
                                   (flog1p (get y_pred idx)))) m))).
Proof.
  intros Wt Wp Hs.
  rewrite tmap2_same by (simpl; exact Hs). cbn [rbind].
  rewrite shape_tmap, tmap_tabulate.
  rewrite (tmap2_broadcast _ _ _ (s := shape y_true))
    by apply broadcast_shapes_nil_r.
  cbn [rbind]. do 2 f_equal. apply tabulate_ext. intros idx Hv.
  rewrite bget_same by exact Hv. rewrite get_tabulate by exact Hv.
  rewrite !get_tmap by (rewrite ?Hs; assumption).
  reflexivity.
Qed.

Lemma mae_elementwise (dev : device) (y_true y_pred : tensor R) (m : R) :
  wf y_true -> wf y_pred -> shape y_pred = shape y_true ->
  mae dev y_true y_pred (scalar m)
  = Ok (tmean_fin (tabulate (shape y_true)
          (fun idx => mae_term m (get y_true idx) (get y_pred idx)))).
Proof. intros. unfold mae. apply log_error_elementwise; assumption. Qed.

Lemma mse_elementwise (dev : device) (y_true y_pred : tensor R) (m : R) :
  wf y_true -> wf y_pred -> shape y_pred = shape y_true ->
  mse dev y_true y_pred (scalar m)
  = Ok (tmean_fin (tabulate (shape y_true)
          (fun idx => mse_term m (get y_true idx) (get y_pred idx)))).
Proof. intros. unfold mse. apply log_error_elementwise; assumption. Qed.

Lemma flog1p_Some (x : R) : -1 < x -> flog1p x = Some (ln (1 + x)).
Proof.
  intros H. unfold flog1p. destruct (Rlt_dec (-1) x); [reflexivity | lra].
Qed.

Lemma flog1p_None (x : R) : x <= -1 -> flog1p x = None.
Proof.
  intros H. unfold flog1p. destruct (Rlt_dec (-1) x); [lra | reflexivity].
Qed.

(** X10.  Where an element of either tensor is at most -1, [mae] and [mse]
    are not finite numbers: the logarithm of [1 + x] is taken without a
    guard. *)
Theorem mae_mse_not_finite (dev : device) (y_true y_pred : tensor R)
    (m : R) (idx : list nat) :
  wf y_true -> wf y_pred -> shape y_pred = shape y_true ->
  valid_idx (shape y_true) idx ->
  get y_true idx <= -1 \/ get y_pred idx <= -1 ->
  mae dev y_true y_pred (scalar m) = Ok None
  /\ mse dev y_true y_pred (scalar m) = Ok None.
Proof.
  intros Wt Wp Hs Hv Hle.
  rewrite mae_elementwise, mse_elementwise by assumption.
  assert (E : olift2 Rminus (flog1p (get y_true idx)) (flog1p (get y_pred idx))
              = None).
  { destruct Hle as [H|H]; rewrite (flog1p_None H);
      [reflexivity | destruct (flog1p (get y_true idx)); reflexivity]. }
  split; (rewrite tmean_fin_tabulate_None with (idx := idx);
          [reflexivity | exact Hv |]).
  - unfold mae_term. rewrite E. reflexivity.
  - unfold mse_term. rewrite E. reflexivity.
Qed.

Lemma mae_mse_not_finite_witness :
  mae cpu (mkTensor [2]%nat [3; -1]) (mkTensor [2]%nat [3; 1]) (scalar 1)
  = Ok None
  /\ mse cpu (mkTensor [2]%nat [3; -1]) (mkTensor [2]%nat [3; 1]) (scalar 1)
     = Ok None.
Proof.
  apply (@mae_mse_not_finite cpu (mkTensor [2]%nat [3; -1])
           (mkTensor [2]%nat [3; 1]) 1 [1%nat]); try reflexivity.
  - repeat constructor.
  - left. unfold get. simpl. lra.
Defined.

Lemma log_terms_Some (m a b : R) :
  -1 < a -> -1 < b ->
  mae_term m a b = Some (Rabs (ln (1 + a) - ln (1 + b)) * m)
  /\ mse_term m a b = Some ((ln (1 + a) - ln (1 + b)) ^ 2 * m).
Proof.
  intros Ha Hb. unfold mae_term, mse_term.
  rewrite (flog1p_Some Ha), (flog1p_Some Hb). split; reflexivity.
Qed.

(** X11.  On two well-formed tensors of one shape with at least one
    element, all elements above -1, and for a factor [m >= 0], [mae] and
    [mse] are finite and at least 0. *)
Theorem mae_mse_nonneg (dev : device) (y_true y_pred : tensor R) (m : R) :
  wf y_true -> wf y_pred -> shape y_pred = shape y_true ->
  (0 < numel (shape y_true))%nat -> 0 <= m ->
  (forall idx, valid_idx (shape y_true) idx ->
     -1 < get y_true idx /\ -1 < get y_pred idx) ->
  (exists r, mae dev y_true y_pred (scalar m) = Ok (Some r) /\ 0 <= r)
  /\ (exists r, mse dev y_true y_pred (scalar m) = Ok (Some r) /\ 0 <= r).
Proof.
  intros Wt Wp Hs Hn Hm Hgt.
  rewrite mae_elementwise, mse_elementwise by assumption.
  split.
  - destruct (@tmean_fin_tabulate_nonneg (shape y_true)
                (fun idx => mae_term m (get y_true idx) (get y_pred idx)) Hn)
      as (r & -> & Hr); [|exists r; split; [reflexivity | exact Hr]].
    intros idx Hv. destruct (Hgt idx Hv) as [Ha Hb].
    rewrite (proj1 (log_terms_Some m Ha Hb)). eexists. split; [reflexivity|].
    apply Rmult_le_pos; [apply Rabs_pos | exact Hm].
  - destruct (@tmean_fin_tabulate_nonneg (shape y_true)
                (fun idx => mse_term m (get y_true idx) (get y_pred idx)) Hn)
      as (r & -> & Hr); [|exists r; split; [reflexivity | exact Hr]].
    intros idx Hv. destruct (Hgt idx Hv) as [Ha Hb].
    rewrite (proj2 (log_terms_Some m Ha Hb)). eexists. split; [reflexivity|].
    apply Rmult_le_pos; [apply pow2_ge_0 | exact Hm].
Qed.

Lemma mae_mse_nonneg_witness :
  (exists r, mae cpu (mkTensor [2]%nat [3; 0]) (mkTensor [2]%nat [1; 1])
               (scalar 1) = Ok (Some r) /\ 0 <= r)
  /\ (exists r, mse cpu (mkTensor [2]%nat [3; 0]) (mkTensor [2]%nat [1; 1])
                  (scalar 1) = Ok (Some r) /\ 0 <= r).
Proof.
  apply (@mae_mse_nonneg cpu (mkTensor [2]%nat [3; 0])
           (mkTensor [2]%nat [1; 1]) 1); try reflexivity.
  - simpl. lia.
  - lra.
  - intros idx Hv. inversion Hv as [|i n r s Hi Hr]; subst.
    inversion Hr; subst.
    assert (Hc : i = 0%nat \/ i = 1%nat) by lia.
    destruct Hc as [-> | ->]; unfold get; simpl; lra.
Defined.

(** X12.  [mae] and [mse] of a well-formed tensor with at least one
    element, all above -1, against itself are 0, whatever the factor. *)
Theorem mae_mse_self (dev : device) (y : tensor R) (m : R) :
  wf y -> (0 < numel (shape y))%nat ->
  (forall idx, valid_idx (shape y) idx -> -1 < get y idx) ->
  mae dev y y (scalar m) = Ok (Some 0)
  /\ mse dev y y (scalar m) = Ok (Some 0).
Proof.
  intros Wy Hn Hgt.
  rewrite mae_elementwise, mse_elementwise by auto.
  assert (Hz : forall q : R, (if (numel (shape y) =? 0)%nat
                              then None else Some q) = Some q).
  { intros q. destruct (Nat.eqb_spec (numel (shape y)) 0); [lia|reflexivity]. }
  split.
  - rewrite (@tabulate_ext _ (shape y) _ (fun _ => Some 0)).
    + rewrite tmean_fin_zeros, Hz. reflexivity.
    + intros idx Hv. specialize (Hgt idx Hv).
      rewrite (proj1 (log_terms_Some m Hgt Hgt)). f_equal.
      replace (ln (1 + get y idx) - ln (1 + get y idx)) with 0 by lra.
      rewrite Rabs_R0. lra.
  - rewrite (@tabulate_ext _ (shape y) _ (fun _ => Some 0)).
    + rewrite tmean_fin_zeros, Hz. reflexivity.
    + intros idx Hv. specialize (Hgt idx Hv).
      rewrite (proj2 (log_terms_Some m Hgt Hgt)). f_equal.
      replace (ln (1 + get y idx) - ln (1 + get y idx)) with 0 by lra.
      lra.
Qed.

Lemma mae_mse_self_witness :
  mae cpu (mkTensor [2]%nat [3; 0]) (mkTensor [2]%nat [3; 0]) (scalar 2)
  = Ok (Some 0)
  /\ mse cpu (mkTensor [2]%nat [3; 0]) (mkTensor [2]%nat [3; 0]) (scalar 2)
     = Ok (Some 0).
Proof.
  apply (@mae_mse_self cpu (mkTensor [2]%nat [3; 0]) 2); try reflexivity.
  - simpl. lia.
  - intros idx Hv. inversion Hv as [|i n r s Hi Hr]; subst.
    inversion Hr; subst.
    assert (Hc : i = 0%nat \/ i = 1%nat) by lia.
    destruct Hc as [-> | ->]; unfold get; simpl; lra.
Defined.

Lemma all_finite_map_scale (m : R) (l : list (option R)) :
  all_finite (map (fun o => oscale o m) l)
  = option_map (map (fun v => v * m)) (all_finite l).
Proof.
  induction l as [|o l IH]; [reflexivity|].
  destruct o as [v|]; [|reflexivity]. cbn [map oscale option_map all_finite].
  rewrite IH. destruct (all_finite l); reflexivity.
Qed.

Lemma mean_list_scale (m : R) (l : list R) :
  mean_list (map (fun v => v * m) l)
  = option_map (fun v => v * m) (mean_list l).
Proof.
  destruct l as [|v l]; [reflexivity|].
  unfold mean_list. cbn [map option_map]. f_equal.
  rewrite <- !(map_cons (fun v => v * m)), length_map.
  assert (E : forall l', Rsum (map (fun v => v * m) l') = Rsum l' * m).
  { induction l' as [|a l' IH]; simpl; [lra|]. unfold Rsum in *. lra. }
  rewrite E. unfold Rdiv. lra.
Qed.

(** X13.  With a number [m] as factor, [mae] and [mse] on two well-formed
    tensors of one shape are [m] times what they are with the factor 1 of
    the default; both sides fail to be finite together. *)
Theorem mae_mse_factor (dev : device) (y_true y_pred : tensor R) (m : R) :
  wf y_true -> wf y_pred -> shape y_pred = shape y_true ->
  (exists r, mae dev y_true y_pred (scalar 1) = Ok r
             /\ mae dev y_true y_pred (scalar m)
                = Ok (option_map (fun v => v * m) r))
  /\ (exists r, mse dev y_true y_pred (scalar 1) = Ok r
                /\ mse dev y_true y_pred (scalar m)
                   = Ok (option_map (fun v => v * m) r)).
Proof.
  intros Wt Wp Hs. rewrite !mae_elementwise, !mse_elementwise by assumption.
  assert (Hgen : forall g : R -> R,
    tmean_fin (tabulate (shape y_true) (fun idx =>
      oscale (option_map g (olift2 Rminus (flog1p (get y_true idx))
                                          (flog1p (get y_pred idx)))) m))
    = option_map (fun v => v * m)
        (tmean_fin (tabulate (shape y_true) (fun idx =>
           oscale (option_map g (olift2 Rminus (flog1p (get y_true idx))
                                               (flog1p (get y_pred idx))))
                  1)))).
  { intros g. unfold tmean_fin, tabulate; cbn [data].
    rewrite <- (map_map _ (fun o => oscale o m)).
    rewrite <- (map_map _ (fun o => oscale o 1)).
    rewrite !all_finite_map_scale.
    destruct (all_finite _) as [l|]; [|reflexivity].
    cbn [option_map]. rewrite mean_list_scale.
    rewrite (map_ext (fun v => v * 1) (fun v => v)) by (intros; lra).
    rewrite map_id. reflexivity. }
  split; eexists; (split; [reflexivity|]); f_equal; apply Hgen.
Qed.

Lemma mae_mse_factor_witness :
  exists r,
    mae cpu (mkTensor [2]%nat [3; 0]) (mkTensor [2]%nat [1; 1]) (scalar 1)
    = Ok r
    /\ mae cpu (mkTensor [2]%nat [3; 0]) (mkTensor [2]%nat [1; 1]) (scalar 5)
       = Ok (option_map (fun v => v * 5) r).
Proof.
  apply (proj1 (@mae_mse_factor cpu (mkTensor [2]%nat [3; 0])
                  (mkTensor [2]%nat [1; 1]) 5 eq_refl eq_refl eq_refl)).
Defined.

(** ** [vae_loss_function] *)

Lemma Rsum_map_nonneg {A} (f : A -> R) (l : list A) :
  (forall a, In a l -> 0 <= f a) -> 0 <= Rsum (map f l).
Proof.
  intros H. apply Rsum_nonneg, Forall_forall. intros v Hv.
  apply in_map_iff in Hv. destruct Hv as (a & <- & Ha). auto.
Qed.

Lemma Rsum_map_nonpos {A} (f : A -> R) (l : list A) :
  (forall a, In a l -> f a <= 0) -> Rsum (map f l) <= 0.
Proof.
  intros H. apply Rsum_nonpos, Forall_forall. intros v Hv.
  apply in_map_iff in Hv. destruct Hv as (a & <- & Ha). auto.
Qed.

(** X14.  On an observation of shape (T, B, F) and latent parameters of
    shape (B, L) with a batch of at least one element, the variational loss
    is a finite number and at least 0. *)
Theorem vae_loss_function_nonneg (dev : device) (T B F L : nat)
    (x_hat x z mu logvar : tensor R) :
  wf mu -> wf logvar ->
  shape x = [T; B; F]%nat -> shape x_hat = [T; B; F]%nat ->
  shape mu = [B; L]%nat -> shape logvar = [B; L]%nat ->
  (0 < B)%nat ->
  exists r, vae_loss_function dev x_hat x z mu logvar = Ok (Some r)
            /\ 0 <= r.
Proof.
  intros Wm Wl Sx Sh Sm Sl HB.
  rewrite (vae_loss_function_spec dev x_hat x z Wm Wl Sx Sh Sm Sl).
  unfold vae_loss_spec.
  match goal with |- context [mean_list ?l] =>
    destruct (@mean_list_Some l) as (r & -> & -> & Hi);
      [ intros E; apply (f_equal (@length R)) in E;
        rewrite length_map, length_seq in E; simpl in E; lia
      | exists (Rsum l * / INR (length l)); split; [reflexivity|];
        assert (0 <= Rsum l); [|nra] ]
  end.
  apply Rsum_map_nonneg. intros b _.
  assert (Hrec : 0 <= Rsum (map (fun t => Rsum (map (fun f =>
                   (get x [t; b; f] - get x_hat [t; b; f]) ^ 2) (seq 0 F)))
                   (seq 0 T))).
  { apply Rsum_map_nonneg. intros t _. apply Rsum_map_nonneg. intros f _.
    apply pow2_ge_0. }
  assert (Hkl : Rsum (map (fun l => 1 + get logvar [b; l] - get mu [b; l] ^ 2
                             - exp (get logvar [b; l])) (seq 0 L)) <= 0).
  { apply Rsum_map_nonpos. intros l _.
    pose proof (exp_ineq1_le (get logvar [b; l])).
    pose proof (pow2_ge_0 (get mu [b; l])). lra. }
  lra.
Qed.

Lemma vae_loss_function_nonneg_witness :
  let x := mkTensor [2; 1; 2]%nat [1; 2; 3; 4] in
  let x_hat := mkTensor [2; 1; 2]%nat [1; 0; 3; 5] in
  let mu := mkTensor [1; 2]%nat [1; -1] in
  let logvar := mkTensor [1; 2]%nat [0; 2] in
  exists r, vae_loss_function cpu x_hat x mu mu logvar = Ok (Some r)
            /\ 0 <= r.
Proof.
  intros x x_hat mu logvar.
  apply (@vae_loss_function_nonneg cpu 2 1 2 2 x_hat x mu mu logvar);
    try reflexivity.
  lia.
Defined.

(** X15.  The variational loss does not change when the reconstruction and
    the observation, of one shape, change places. *)
Theorem vae_loss_function_sym (dev : device)
    (x_p x z mu logvar : tensor R) :
  shape x_p = shape x ->
  vae_loss_function dev x_p x z mu logvar
  = vae_loss_function dev x x_p z mu logvar.
Proof.
  intros Hs. unfold vae_loss_function, tsub, tpow.
  rewrite (tmap2_same Rminus x x_p) by exact Hs.
  rewrite (tmap2_same Rminus x_p x) by (symmetry; exact Hs).
  cbn [rbind]. rewrite !tmap_tabulate, Hs.
  rewrite (@tabulate_ext _ (shape x)
             (fun idx => (get x idx - get x_p idx) ^ 2)
             (fun idx => (get x_p idx - get x idx) ^ 2)).
  - reflexivity.
  - intros idx _. ring.
Qed.

Lemma vae_loss_function_sym_witness :
  let x := mkTensor [2; 1; 2]%nat [1; 2; 3; 4] in
  let x_hat := mkTensor [2; 1; 2]%nat [1; 0; 3; 5] in
  let mu := mkTensor [1; 2]%nat [1; -1] in
  vae_loss_function cpu x_hat x mu mu mu
  = vae_loss_function cpu x x_hat mu mu mu.
Proof.
  intros x x_hat mu.
  apply (@vae_loss_function_sym cpu x_hat x mu mu mu). reflexivity.
Defined.

(** ** A tensor is the table of its elements *)

Lemma unravel (s : list nat) (k : nat) :
  (k < numel s)%nat ->
  exists idx, nth_error (indices s) k = Some idx /\ ravel s idx = Some k.
Proof.
  revert k. induction s as [|n s IH]; intros k Hk.
  - simpl in Hk. assert (k = 0%nat) by lia. subst k.
    exists []. split; reflexivity.
  - cbn [numel fold_right] in Hk. fold (numel s) in Hk.
    assert (Hpos : (0 < numel s)%nat) by nia.
    assert (Hr : (k mod numel s < numel s)%nat)
      by (apply Nat.mod_upper_bound; lia).
    assert (Hq : (k / numel s < n)%nat)
      by (apply Nat.Div0.div_lt_upper_bound; lia).
    assert (Hk' : k = (k / numel s * numel s + k mod numel s)%nat).
    { rewrite (Nat.div_mod_eq k (numel s)) at 1. lia. }
    destruct (IH _ Hr) as (idx & Hn & Hrv).
    exists ((k / numel s)%nat :: idx). split.
    + rewrite Hk' at 1. cbn [indices].
      rewrite nth_error_flat_map_seq with (m := numel s);
        [|intros j; rewrite length_map; apply length_indices | exact Hq
         | exact Hr].
      simpl. rewrite nth_error_map, Hn. reflexivity.
    + cbn [ravel]. apply Nat.ltb_lt in Hq. rewrite Hq, Hrv.
      f_equal. lia.
Qed.

Lemma tabulate_get {A} `{Dflt A} (t : tensor A) :
  wf t -> tabulate (shape t) (get t) = t.
Proof.
  intros Wt. destruct t as [s d]. unfold wf in Wt. cbn [shape data] in *.
  unfold tabulate. f_equal. apply nth_error_ext. intros k.
  rewrite nth_error_map.
  destruct (Nat.lt_ge_cases k (numel s)) as [Hk|Hk].
  - destruct (unravel s Hk) as (idx & Hn & Hr). rewrite Hn. cbn [option_map].
    unfold get. cbn [shape data]. rewrite Hr.
    symmetry. apply nth_error_nth'. lia.
  - assert (E1 : nth_error (indices s) k = None)
      by (apply nth_error_None; rewrite length_indices; exact Hk).
    assert (E2 : nth_error d k = None) by (apply nth_error_None; lia).
    rewrite E1, E2. reflexivity.
Qed.

(** ** The split of the projection into [mu] and [logvar] *)

Lemma py_bound_le (n : nat) (b : Z) : (py_bound n b <= n)%nat.
Proof. unfold py_bound. destruct (b <? 0)%Z; lia. Qed.

Lemma py_bound_id (n : nat) (b : Z) :
  (0 <= b <= Z.of_nat n)%Z -> py_bound n b = Z.to_nat b.
Proof.
  intros Hb. unfold py_bound.
  destruct (Z.ltb_spec b 0); [lia|]. lia.
Qed.

(** X16.  Whatever the integer [latent_dim], the slices [z0[:, :latent_dim]]
    and [z0[:, latent_dim:]] of a well-formed matrix split its columns in
    two: concatenated along the last dimension they give [z0] back.  For
    [0 <= latent_dim <= W] the first has [latent_dim] columns and the
    second the [W - latent_dim] others. *)
Theorem mu_logvar_partition (z0 : tensor R) (B W : nat) (latent_dim : Z) :
  wf z0 -> shape z0 = [B; W]%nat ->
  exists mu logvar,
    slice1 None (Some latent_dim) z0 = Ok mu
    /\ slice1 (Some latent_dim) None z0 = Ok logvar
    /\ cat_last mu logvar = Ok z0
    /\ ((0 <= latent_dim <= Z.of_nat W)%Z ->
        shape mu = [B; Z.to_nat latent_dim]
        /\ shape logvar = [B; (W - Z.to_nat latent_dim)%nat]).
Proof.
  intros Wz Hs. unfold slice1. rewrite Hs.
  unfold py_slice. set (k := py_bound W latent_dim).
  pose proof (py_bound_le W latent_dim) as Hk. fold k in Hk.
  rewrite Nat.sub_0_r.
  eexists. eexists. split; [reflexivity|]. split; [reflexivity|].
  split.
  - assert (Hcat : forall a b : tensor R,
              shape a = [B; k] -> shape b = [B; (W - k)%nat] ->
              cat_last a b
              = Ok (tabulate [B; W] (fun idx =>
                      let j := last idx 0%nat in
                      if (j <? k)%nat then get a idx
                      else get b (removelast idx ++ [(j - k)%nat])))).
    { intros a b Ha Hb. unfold cat_last. rewrite Ha, Hb.
      destruct B; cbn [removelast last_dim last app];
        (destruct (list_eq_dec Nat.eq_dec _ _) as [_|N]; [|congruence]);
        replace (k + (W - k))%nat with W by lia; reflexivity. }
    rewrite Hcat by (unfold narrow; rewrite shape_tabulate, Hs; reflexivity).
    f_equal.
    transitivity (tabulate (shape z0) (get z0));
      [|apply tabulate_get; exact Wz].
    rewrite Hs. apply tabulate_ext. intros idx Hv.
    inversion Hv as [|b nb r s Hb Hr]; subst.
    inversion Hr as [|j nj r' s' Hj Hr']; subst.
    inversion Hr'; subst.
    cbn [last removelast app]. unfold narrow. rewrite Hs.
    cbn [set_nth firstn skipn app].
    destruct (Nat.ltb_spec j k) as [Hjk|Hjk].
    + rewrite get_tabulate by (repeat constructor; assumption).
      cbn [nth set_nth firstn skipn app]. rewrite Nat.add_0_r. reflexivity.
    + rewrite get_tabulate by (repeat constructor; [assumption | lia]).
      cbn [nth set_nth firstn skipn app].
      replace (j - k + k)%nat with j by lia. reflexivity.
  - intros Hl. unfold narrow. rewrite !shape_tabulate, Hs.
    cbn [set_nth firstn skipn app].
    subst k. rewrite py_bound_id by exact Hl. split; reflexivity.
Qed.

Lemma mu_logvar_partition_witness :
  exists mu logvar,
    slice1 None (Some 1%Z) (mkTensor [2; 2]%nat [1; 2; 3; 4]) = Ok mu
    /\ slice1 (Some 1%Z) None (mkTensor [2; 2]%nat [1; 2; 3; 4]) = Ok logvar
    /\ cat_last mu logvar = Ok (mkTensor [2; 2]%nat [1; 2; 3; 4])
    /\ shape mu = [2; 1]%nat /\ shape logvar = [2; 1]%nat.
Proof.
  destruct (@mu_logvar_partition (mkTensor [2; 2]%nat [1; 2; 3; 4]) 2 2 1
              eq_refl eq_refl) as (mu & logvar & Hm & Hl & Hc & Hsh).
  exists mu, logvar. repeat split; try assumption; apply Hsh; simpl; lia.
Defined.

(** ** The hidden state of the missing-aware cell *)

Lemma norm_dim_last (n : nat) :
  (1 <= n)%nat -> norm_dim (-1) n = Some (n - 1)%nat.
Proof.
  intros Hn. unfold norm_dim. cbn [Z.ltb Z.compare].
  destruct (Z.leb_spec 0 (-1 + Z.of_nat n)); [|lia].
  destruct (Z.ltb_spec (-1 + Z.of_nat n) (Z.of_nat n)); [|lia].
  cbn [andb]. f_equal. lia.
Qed.

Lemma norm_dim_0 (n : nat) : (1 <= n)%nat -> norm_dim 0 n = Some 0%nat.
Proof.
  intros Hn. unfold norm_dim. cbn [Z.ltb Z.compare Z.leb andb].
  destruct (Z.ltb_spec 0 (Z.of_nat n)); [reflexivity | lia].
Qed.

Lemma get_unsqueeze_1 {A} `{Dflt A} (t : tensor A) (n0 n1 b h : nat) :
  shape t = [n0; n1]%nat ->
  get {| shape := [n0; 1; n1]%nat; data := data t |} [b; 0; h]%nat
  = get t [b; h].
Proof.
  intros Hs. unfold get. rewrite Hs. cbn [shape data ravel].
  change (0 <? 1)%nat with true. cbv iota.
  destruct (b <? n0)%nat; [|reflexivity].
  destruct (h <? n1)%nat; [|reflexivity].
  f_equal. cbn [numel fold_right]. lia.
Qed.

(** X17.  In the 'grud' branch the hidden state of shape (B, T, H), with
    [T >= 1], goes through [h0[:, -1, :]], [unsqueeze], [permute] and
    [h0[0]]: what reaches the projection is the hidden state of the last
    step, [h0[b, T-1, h]] at [(b, h)], and it is [h0[:, -1, :]] itself. *)
Theorem grud_hidden_summary (h0 : tensor R) (B T H : nat) :
  shape h0 = [B; T; H]%nat -> (1 <= T)%nat ->
  (s <- getitem_c_last_c h0 ;;
   u <- unsqueeze 1 s ;;
   p <- permute [1; 0; 2]%nat u ;;
   tselect 0 0 p)%result
  = Ok (tabulate [B; H]%nat (fun idx =>
          match idx with
          | [b; h] => get h0 [b; (T - 1)%nat; h]
          | _ => 0
          end))
  /\ getitem_c_last_c h0
     = Ok (tabulate [B; H]%nat (fun idx =>
             match idx with
             | [b; h] => get h0 [b; (T - 1)%nat; h]
             | _ => 0
             end)).
Proof.
  intros Hs HT.
  assert (Hsel : getitem_c_last_c h0
                 = Ok (tabulate [B; H]%nat (fun idx =>
                         match idx with
                         | [b; h] => get h0 [b; (T - 1)%nat; h]
                         | _ => 0
                         end))).
  { unfold getitem_c_last_c, tselect. rewrite Hs.
    cbn [length Nat.leb Nat.ltb nth remove_at firstn skipn app].
    rewrite norm_dim_last by exact HT. f_equal.
    apply tabulate_ext. intros idx Hv.
    inversion Hv as [|b nb r s Hb Hr]; subst.
    inversion Hr as [|h nh r' s' Hh Hr']; subst.
    inversion Hr'; subst. reflexivity. }
  split; [|exact Hsel].
  rewrite Hsel. cbn [rbind].
  unfold unsqueeze. rewrite shape_tabulate.
  cbn [length Nat.leb insert_at firstn skipn app rbind].
  unfold permute. cbn [shape length is_perm Nat.eqb andb forallb existsb seq
                       orb map nth index_of].
  cbn [rbind]. unfold tselect. rewrite shape_tabulate.
  cbn [length Nat.ltb Nat.leb nth remove_at firstn skipn app].
  rewrite norm_dim_0 by lia. f_equal.
  apply tabulate_ext. intros idx Hv.
  inversion Hv as [|b nb r s Hb Hr]; subst.
  inversion Hr as [|h nh r' s' Hh Hr']; subst.
  inversion Hr'; subst.
  cbn [insert_at firstn skipn app].
  rewrite get_tabulate by (repeat constructor; assumption).
  cbn [nth].
  rewrite get_unsqueeze_1 by reflexivity.
  rewrite get_tabulate by (repeat constructor; assumption). reflexivity.
Qed.

Lemma grud_hidden_summary_witness :
  (s <- getitem_c_last_c (mkTensor [1; 2; 2]%nat [1; 2; 3; 4]) ;;
   u <- unsqueeze 1 s ;;
   p <- permute [1; 0; 2]%nat u ;;
   tselect 0 0 p)%result
  = getitem_c_last_c (mkTensor [1; 2; 2]%nat [1; 2; 3; 4]).
Proof.
  destruct (@grud_hidden_summary (mkTensor [1; 2; 2]%nat [1; 2; 3; 4])
              1 2 2 eq_refl ltac:(lia)) as [H1 H2].
  rewrite H1, H2. reflexivity.
Defined.

(** ** The query times of the decoder *)

Section Decoder.

Variable NNModule : Type.
Variable call_linear : NNModule -> tensor R -> result (tensor R).
Variable call_ode : NNModule -> tensor R -> tensor R -> result (tensor R).

(** X18.  From a time tensor of shape (T, B, K) with [B >= 1] and
    [K >= 1] the decoder hands the integrator the [T] times [t[i, 0, 0]];
    from a tensor of fewer than three dimensions, or with an empty second
    or third one, it raises [IndexError] and the integrator is not
    called. *)
Theorem NeuralODEDecoder_forward_query_times
    (self : NeuralODEDecoder NNModule) (z0 : tensor R)
    (h : heap) (t : loc) (tv : tensor R) :
  nth_error h t = Some tv ->
  (forall T B K, shape tv = [T; B; K]%nat -> (1 <= B)%nat -> (1 <= K)%nat ->
     let t_1d := tabulate [T]%nat (fun idx =>
                   match idx with
                   | [i] => get tv [i; 0; 0]%nat
                   | _ => 0
                   end) in
     getitem_c_0_0 tv = Ok t_1d
     /\ fst (NeuralODEDecoder_forward call_linear call_ode self z0 t h)
        = (zs <- call_ode (ode self) z0 t_1d ;;
           hs <- call_linear (l2h self) zs ;;
           call_linear (h2o self) hs)%result)
  /\
  ((length (shape tv) < 3)%nat
   \/ nth 1 (shape tv) 0%nat = 0%nat \/ nth 2 (shape tv) 0%nat = 0%nat ->
   fst (NeuralODEDecoder_forward call_linear call_ode self z0 t h)
   = Raise IndexError).
Proof.
  intros Ht. split.
  - intros T B K Hs HB HK t_1d.
    assert (Hsel : getitem_c_0_0 tv = Ok t_1d).
    { unfold getitem_c_0_0, tselect at 1. rewrite Hs.
      cbn [length Nat.ltb Nat.leb nth remove_at firstn skipn app].
      rewrite norm_dim_0 by exact HB. cbn [rbind].
      unfold tselect. rewrite shape_tabulate.
      cbn [length Nat.ltb Nat.leb nth remove_at firstn skipn app].
      rewrite norm_dim_0 by exact HK. f_equal.
      apply tabulate_ext. intros idx Hv.
      inversion Hv as [|i ni r s Hi Hr]; subst. inversion Hr; subst.
      cbn [insert_at firstn skipn app].
      rewrite get_tabulate by (repeat constructor; [exact Hi | lia]).
      reflexivity. }
    split; [exact Hsel|].
    unfold NeuralODEDecoder_forward, bind, read, lift, ret.
    rewrite Ht, Hsel.
    destruct (call_ode (ode self) z0 t_1d) as [zs|e]; [|reflexivity].
    cbn [rbind].
    destruct (call_linear (l2h self) zs) as [hs|e]; [|reflexivity].
    cbn [rbind].
    destruct (call_linear (h2o self) hs) as [xs|e]; reflexivity.
  - intros Hbad.
    assert (Hsel : getitem_c_0_0 tv = Raise IndexError).
    { unfold getitem_c_0_0, tselect at 1.
      destruct (shape tv) as [|n0 [|n1 [|n2 s]]] eqn:Hs;
        cbn [length Nat.ltb Nat.leb nth] in *; try reflexivity.
      - (* two dimensions *)
        cbn [remove_at firstn skipn app].
        destruct (norm_dim 0 n1) as [j|]; [|reflexivity].
        cbn [rbind]. unfold tselect. rewrite shape_tabulate. reflexivity.
      - (* three dimensions or more *)
        cbn [remove_at firstn skipn app].
        destruct Hbad as [Hl|[H1|H2]]; [lia| |].
        + subst n1. reflexivity.
        + subst n2. destruct (norm_dim 0 n1) as [j|]; [|reflexivity].
          cbn [rbind]. unfold tselect. rewrite shape_tabulate.
          cbn [length Nat.ltb Nat.leb nth]. reflexivity. }
    unfold NeuralODEDecoder_forward, bind, read, lift.
    rewrite Ht, Hsel. reflexivity.
Qed.

End Decoder.

Lemma NeuralODEDecoder_forward_query_times_witness :
  let t := mkTensor [2; 1; 2]%nat [1; 5; 2; 6] in
  let self := mkNeuralODEDecoder 3 8 4 0%nat 1%nat 2%nat in
  let linear := fun (_ : nat) (v : tensor R) => Ok v in
  let integrate := fun (_ : nat) (z0 ts : tensor R) => Ok ts in
  data (tabulate [2]%nat (fun idx =>
          match idx with [i] => get t [i; 0; 0]%nat | _ => 0 end))
  = [1; 2]
  /\ fst (NeuralODEDecoder_forward linear integrate self (scalar 0)
            0%nat [mkTensor [2; 2]%nat [1; 2; 3; 4]])
     = Raise IndexError.
Proof.
  intros t self linear integrate. split; [reflexivity|].
  apply (proj2 (@NeuralODEDecoder_forward_query_times nat linear integrate
                  self (scalar 0) [mkTensor [2; 2]%nat [1; 2; 3; 4]] 0%nat
                  (mkTensor [2; 2]%nat [1; 2; 3; 4]) eq_refl)).
  left. simpl. lia.
Defined.

(** ** The constructor of the composed model *)

Section ModelConstruction.

Variable NNModule : Type.
Variable nn_GRU GRUD_cell nn_Linear NeuralODE : Z -> Z -> result NNModule.

(** X19.  [ODEVAE.__init__] builds the encoder first: with an encoder name
    that is neither 'gru' nor 'grud' it raises the [ValueError] of the
    encoder, whatever the other modules would do. *)
Theorem ODEVAE_init_invalid_encoder
    (output_dim hidden_dim latent_dim : Z) (encoder : string) :
  encoder <> "gru"%string -> encoder <> "grud"%string ->
  ODEVAE_init nn_GRU GRUD_cell nn_Linear NeuralODE
    output_dim hidden_dim latent_dim encoder
  = Raise (ValueError
             (invalid_encoder_msg encoder ["gru"; "grud"]%string)).
Proof.
  intros H1 H2. unfold ODEVAE_init, RNNEncoder_init.
  apply String.eqb_neq in H1, H2. rewrite H1, H2. reflexivity.
Qed.

End ModelConstruction.

Lemma ODEVAE_init_invalid_encoder_witness :
  ODEVAE_init (fun _ _ => Ok 0%nat) (fun _ _ => Ok 1%nat)
    (fun _ _ => Ok 2%nat) (fun _ _ => Raise RuntimeError) 3 8 4 "lstm"
  = Raise (ValueError
      "Invalid encoder! Encoder specified: lstm, Allowed Encoders: ['gru', 'grud']").
Proof.
  apply (@ODEVAE_init_invalid_encoder nat (fun _ _ => Ok 0%nat)
           (fun _ _ => Ok 1%nat) (fun _ _ => Ok 2%nat)
           (fun _ _ => Raise RuntimeError) 3 8 4 "lstm");
    discriminate.
Defined.

(** ** The encoder on its time tensor *)

Lemma time_offsets_no_step (t : loc) (h : heap) (old : tensor R) :
  nth_error h t = Some old ->
  shape old = [] \/ (exists s, shape old = 0%nat :: s) ->
  fst (time_offsets t h) = Raise IndexError.
Proof.
  intros Ht Hs.
  unfold time_offsets, clone, bind at 1 2. unfold read at 1. rewrite Ht.
  unfold alloc.
  unfold getitem_slice0, bind at 1 2. rewrite read_last. unfold lift at 1.
  unfold slice0 at 1.
  destruct Hs as [Hs|[s Hs]]; rewrite Hs; [reflexivity|].
  rewrite py_slice_init.
  unfold bind at 1 2. rewrite read_last. unfold lift at 1.
  unfold slice0 at 1. rewrite Hs.
  replace (py_slice (Some 1%Z) None 0) with (0%nat, 0%nat) by reflexivity.
  unfold bind at 1. unfold lift at 1. unfold tsub.
  assert (SN : forall lo, shape (narrow 0 lo 0 old) = 0%nat :: s).
  { intros lo. unfold narrow. rewrite Hs. reflexivity. }
  rewrite tmap2_same by (rewrite !SN; reflexivity). rewrite SN.
  unfold setitem_slice, bind at 1 2 3. rewrite read_last. unfold lift at 1.
  unfold setitem_slice0. rewrite Hs.
  replace (py_slice (Some 1%Z) None 0) with (0%nat, 0%nat) by reflexivity.
  rewrite shape_tabulate, broadcast_shapes_refl.
  destruct (list_eq_dec Nat.eq_dec (0%nat :: s) (0%nat :: s))
    as [_|N]; [|congruence].
  rewrite write_last.
  unfold setitem_fill, bind at 1 2 3. rewrite read_last. unfold lift at 1.
  unfold setitem_fill0. rewrite shape_tabulate. reflexivity.
Qed.

Section EncoderTimes.

Variable NNModule : Type.
Variable call_rnn : NNModule -> tensor R -> result (tensor R * tensor R).
Variable call_gru_d : NNModule -> tensor R -> result (tensor R * tensor R).
Variable call_linear : NNModule -> tensor R -> result (tensor R).

(** X20.  On a time tensor without a first dimension or with no step the
    forward pass of the encoder raises [IndexError], whatever the
    observations and the recurrent cell. *)
Theorem RNNEncoder_forward_no_step (self : RNNEncoder NNModule)
    (x t : loc) (h : heap) (old : tensor R) :
  nth_error h t = Some old ->
  shape old = [] \/ (exists s, shape old = 0%nat :: s) ->
  fst (RNNEncoder_forward call_rnn call_gru_d call_linear self x t h)
  = Raise IndexError.
Proof.
  intros Ht Hs. pose proof (time_offsets_no_step t h Ht Hs) as E.
  unfold RNNEncoder_forward, bind at 1.
  destruct (time_offsets t h) as [[t'|e] h1]; simpl in E;
    [discriminate | injection E as ->; reflexivity].
Qed.

(** X21.  The encoder reads the times only through their differences: two
    time tensors of one shape, with at least one step, that differ by a
    constant give the same result and leave the same heap. *)
Theorem RNNEncoder_forward_shift (self : RNNEncoder NNModule)
    (x t1 t2 : loc) (h : heap) (old1 old2 : tensor R)
    (n : nat) (s : list nat) (c : R) :
  nth_error h t1 = Some old1 -> nth_error h t2 = Some old2 ->
  shape old1 = n :: s -> shape old2 = n :: s -> (1 <= n)%nat ->
  (forall idx, valid_idx (n :: s) idx -> get old2 idx = get old1 idx + c) ->
  RNNEncoder_forward call_rnn call_gru_d call_linear self x t1 h
  = RNNEncoder_forward call_rnn call_gru_d call_linear self x t2 h.
Proof.
  intros H1 H2 S1 S2 Hn Hc.
  assert (E : time_offsets t2 h = time_offsets t1 h).
  { rewrite (time_offsets_run t1 h H1 S1 Hn), (time_offsets_run t2 h H2 S2 Hn).
    do 3 f_equal. apply tabulate_ext.
    intros idx Hv. inversion Hv as [|i n' r s' Hi Hr]; subst.
    destruct (Nat.eqb_spec i 0) as [|Hi0]; [reflexivity|].
    rewrite (Hc (i :: r)) by exact Hv.
    rewrite (Hc ((i - 1)%nat :: r)) by (constructor; [lia | exact Hr]).
    lra. }
  unfold RNNEncoder_forward, bind at 1. rewrite <- E. reflexivity.
Qed.

End EncoderTimes.

Lemma RNNEncoder_forward_no_step_witness :
  let self := mkRNNEncoder 1 1 1 "gru" ["gru"; "grud"]%string 0%nat 1%nat in
  let rnn := fun (_ : nat) (v : tensor R) => Ok (v, v) in
  let linear := fun (_ : nat) (v : tensor R) => Ok v in
  fst (RNNEncoder_forward rnn rnn linear self 0%nat 0%nat
         [mkTensor [0; 1; 1]%nat []])
  = Raise IndexError.
Proof.
  intros self rnn linear.
  apply (@RNNEncoder_forward_no_step nat rnn rnn linear self 0%nat 0%nat
           [mkTensor [0; 1; 1]%nat []] (mkTensor [0; 1; 1]%nat []) eq_refl).
  right. exists [1; 1]%nat. reflexivity.
Defined.

Lemma RNNEncoder_forward_shift_witness :
  let x := mkTensor [2; 1; 1]%nat [10; 20] in
  let t1 := mkTensor [2; 1; 1]%nat [0; 3] in
  let t2 := mkTensor [2; 1; 1]%nat [0 + 5; 3 + 5] in
  let self := mkRNNEncoder 1 1 1 "gru" ["gru"; "grud"]%string 0%nat 1%nat in
  let rnn := fun (_ : nat) (v : tensor R) => Ok (v, v) in
  let linear := fun (_ : nat) (v : tensor R) => Ok v in
  RNNEncoder_forward rnn rnn linear self 0%nat 1%nat [x; t1; t2]
  = RNNEncoder_forward rnn rnn linear self 0%nat 2%nat [x; t1; t2].
Proof.
  intros x t1 t2 self rnn linear.
  apply (@RNNEncoder_forward_shift nat rnn rnn linear self 0%nat 1%nat 2%nat
           [x; t1; t2] t1 t2 2%nat [1; 1]%nat 5); try reflexivity.
  - lia.
  - intros idx Hv. inversion Hv as [|i n r s Hi Hr]; subst.
    inversion Hr as [|b nb r' s' Hb Hr']; subst.
    inversion Hr' as [|k nk r'' s'' Hk Hr'']; subst.
    inversion Hr''; subst.
    assert (b = 0%nat) by lia. assert (k = 0%nat) by lia. subst b k.
    assert (Hc : i = 0%nat \/ i = 1%nat) by lia.
    destruct Hc as [-> | ->]; reflexivity.
Defined.

(** ** The sum of the time offsets *)

Lemma Rsum_app (l1 l2 : list R) : Rsum (l1 ++ l2) = Rsum l1 + Rsum l2.
Proof.
  induction l1 as [|v l1 IH]; simpl; [lra|]. unfold Rsum in *. lra.
Qed.

Lemma telescope (f : nat -> R) (n : nat) :
  Rsum (map (fun i => if (i =? 0)%nat then 0 else f (i - 1)%nat - f i)
            (seq 0 (S n)))
  = f 0%nat - f n.
Proof.
  induction n as [|n IH].
  - simpl. lra.
  - rewrite seq_S, map_app, Rsum_app, IH. cbn [map Nat.add Rsum fold_right].
    destruct (Nat.eqb_spec (S n) 0) as [|_]; [lia|].
    replace (S n - 1)%nat with n by lia. lra.
Qed.

(** X22.  The offsets that the encoder writes into the clone of a time
    tensor of [n >= 1] steps add up, over the steps, to the first time
    minus the last. *)
Theorem time_offsets_sum (t : loc) (h : heap) (old : tensor R)
    (n : nat) (s r : list nat) :
  nth_error h t = Some old -> shape old = n :: s -> (1 <= n)%nat ->
  valid_idx s r ->
  exists new : tensor R,
    time_offsets t h = (Ok (length h), h ++ [new])
    /\ Rsum (map (fun i => get new (i :: r)) (seq 0 n))
       = get old (0%nat :: r) - get old ((n - 1)%nat :: r).
Proof.
  intros Ht Hs Hn Hr.
  eexists. split; [apply time_offsets_run; eassumption|].
  destruct n as [|n]; [lia|].
  replace (S n - 1)%nat with n by lia.
  transitivity
    (Rsum (map (fun i => if (i =? 0)%nat then 0
                         else get old ((i - 1)%nat :: r) - get old (i :: r))
               (seq 0 (S n))));
    [|apply (telescope (fun i => get old (i :: r)) n)].
  apply Rsum_map_ext. intros i Hi. apply in_seq_0 in Hi.
  rewrite get_tabulate by (constructor; [exact Hi | exact Hr]).
  reflexivity.
Qed.

Lemma time_offsets_sum_witness :
  exists new : tensor R,
    time_offsets 0%nat [mkTensor [3]%nat [2; 5; 9]]
    = (Ok 1%nat, [mkTensor [3]%nat [2; 5; 9]] ++ [new])
    /\ Rsum (map (fun i => get new [i]) (seq 0 3))
       = get (mkTensor [3]%nat [2; 5; 9]) [0%nat]
         - get (mkTensor [3]%nat [2; 5; 9]) [2%nat].
Proof.
  apply (@time_offsets_sum 0%nat [mkTensor [3]%nat [2; 5; 9]]
           (mkTensor [3]%nat [2; 5; 9]) 3 [] [] eq_refl eq_refl).
  - lia.
  - constructor.
Defined.

(** ** The encoder on the values of its arguments *)

Section EncoderValues.

Variable NNModule : Type.
Variable call_rnn : NNModule -> tensor R -> result (tensor R * tensor R).
Variable call_gru_d : NNModule -> tensor R -> result (tensor R * tensor R).
Variable call_linear : NNModule -> tensor R -> result (tensor R).

Lemma RNNEncoder_forward_values (self : RNNEncoder NNModule)
    (x t : loc) (h : heap) (xv old : tensor R) (n : nat) (s : list nat) :
  nth_error h x = Some xv -> nth_error h t = Some old ->
  shape old = n :: s -> (1 <= n)%nat ->
  RNNEncoder_forward call_rnn call_gru_d call_linear self x t h
  = (encode_values call_rnn call_gru_d call_linear self xv (offsets_value old n s),
     h ++ [offsets_value old n s]).
Proof.
  intros Hx Ht Hs Hn.
  unfold RNNEncoder_forward, bind at 1.
  rewrite (time_offsets_run t h Ht Hs Hn).
  unfold bind at 1. unfold read at 1.
  rewrite nth_error_app1 by (apply nth_error_Some; congruence). rewrite Hx.
  unfold bind at 1. rewrite read_last.
  unfold encode_values, bind, lift, ret.
  destruct (cat_last xv _) as [xt|e]; [|reflexivity]. cbn [rbind].
  match goal with
  | |- context [if ?c then ?a else ?b] =>
      destruct (if c then a else b) as [h0|e]; [|reflexivity]
  end.
  cbn [rbind].
  destruct (tselect 0 0 h0) as [h00|e]; [|reflexivity]. cbn [rbind].
  destruct (call_linear (hid2lat self) h00) as [z0|e]; [|reflexivity].
  cbn [rbind].
  destruct (slice1 None (Some (enc_latent_dim self)) z0) as [mu|e];
    [|reflexivity].
  cbn [rbind].
  destruct (slice1 (Some (enc_latent_dim self)) None z0) as [logvar|e];
    reflexivity.
Qed.

Lemma cat_last_3 {A} `{Dflt A} (a b : tensor A) (n B F G : nat) :
  shape a = [n; B; F]%nat -> shape b = [n; B; G]%nat ->
  cat_last a b
  = Ok (tabulate [n; B; (F + G)%nat] (fun idx =>
          let j := last idx 0%nat in
          if (j <? F)%nat then get a idx
          else get b (removelast idx ++ [(j - F)%nat]))).
Proof.
  intros Ha Hb. unfold cat_last. rewrite Ha, Hb.
  destruct n; cbn [removelast last_dim last app];
    (destruct (list_eq_dec Nat.eq_dec _ _) as [_|N]; [|congruence]);
    reflexivity.
Qed.

(** X23.  The check of the constructor is repeated in the forward pass: an
    encoder whose name is neither 'gru' nor 'grud', on observations of shape
    (n, B, F) and times of shape (n, B, 1) with [n >= 1], raises the
    [ValueError] that names it, and the recurrent cell is not called. *)
Theorem RNNEncoder_forward_invalid_encoder (self : RNNEncoder NNModule)
    (x t : loc) (h : heap) (xv old : tensor R) (n B F : nat) :
  enc_encoder self <> "gru"%string -> enc_encoder self <> "grud"%string ->
  nth_error h x = Some xv -> nth_error h t = Some old ->
  shape xv = [n; B; F]%nat -> shape old = [n; B; 1]%nat -> (1 <= n)%nat ->
  fst (RNNEncoder_forward call_rnn call_gru_d call_linear self x t h)
  = Raise (ValueError
             (invalid_encoder_msg (enc_encoder self) (allowed_encoders self))).
Proof.
  intros H1 H2 Hx Ht Sx St Hn.
  rewrite (RNNEncoder_forward_values self x t h Hx Ht St Hn). cbn [fst].
  unfold encode_values.
  rewrite (cat_last_3 xv (offsets_value old n [B; 1]%nat) Sx eq_refl).
  cbn [rbind].
  apply String.eqb_neq in H1, H2. rewrite H1, H2. reflexivity.
Qed.

(** X24.  With the 'gru' cell, observations of shape (n, B, F) and times of
    shape (n, B, 1), [n >= 1], the recurrent cell receives a tensor of shape
    (n, B, F + 1) in reverse time order: at step [i] the observation of step
    [n-1-i] followed by its time offset, which is 0 for the first step of
    the sequence and [t[k-1] - t[k]] for a later step [k]. *)
Theorem RNNEncoder_forward_gru_input (self : RNNEncoder NNModule)
    (x t : loc) (h : heap) (xv old : tensor R) (n B F : nat) :
  enc_encoder self = "gru"%string ->
  nth_error h x = Some xv -> nth_error h t = Some old ->
  shape xv = [n; B; F]%nat -> shape old = [n; B; 1]%nat -> (1 <= n)%nat ->
  let input := tabulate [n; B; (F + 1)%nat] (fun idx =>
    match idx with
    | [i; b; j] =>
        let k := (n - 1 - i)%nat in
        if (j <? F)%nat then get xv [k; b; j]
        else if (k =? 0)%nat then 0
        else get old [(k - 1)%nat; b; 0%nat] - get old [k; b; 0%nat]
    | _ => 0
    end) in
  fst (RNNEncoder_forward call_rnn call_gru_d call_linear self x t h)
  = ('(_, h0) <- call_rnn (enc_rnn self) input ;;
     h00 <- tselect 0 0 h0 ;;
     z0 <- call_linear (hid2lat self) h00 ;;
     mu <- slice1 None (Some (enc_latent_dim self)) z0 ;;
     logvar <- slice1 (Some (enc_latent_dim self)) None z0 ;;
     Ok (mu, logvar))%result.
Proof.
  intros Hg Hx Ht Sx St Hn input.
  rewrite (RNNEncoder_forward_values self x t h Hx Ht St Hn). cbn [fst].
  unfold encode_values.
  rewrite (cat_last_3 xv (offsets_value old n [B; 1]%nat) Sx eq_refl).
  cbn [rbind].
  rewrite Hg. cbn [String.eqb Ascii.eqb Bool.eqb].
  unfold flip0 at 1. rewrite shape_tabulate. cbn [rbind].
  match goal with
  | |- context [call_rnn (enc_rnn self) ?inp] =>
      replace inp with input;
        [destruct (call_rnn (enc_rnn self) input) as [[o h0]|e]; reflexivity|]
  end.
  apply tabulate_ext. intros idx Hv.
  inversion Hv as [|i ni r s Hi Hr]; subst.
  inversion Hr as [|b nb r' s' Hb Hr']; subst.
  inversion Hr' as [|j nj r'' s'' Hj Hr'']; subst.
  inversion Hr''; subst.
  rewrite get_tabulate by (repeat constructor; [lia | exact Hb | exact Hj]).
  cbn [last removelast app].
  destruct (Nat.ltb_spec j F) as [HjF|HjF]; [reflexivity|].
  replace (j - F)%nat with 0%nat by lia.
  unfold offsets_value.
  rewrite get_tabulate by (repeat constructor; [lia | exact Hb]).
  reflexivity.
Qed.


End EncoderValues.

Lemma RNNEncoder_forward_invalid_encoder_witness :
  let x := mkTensor [2; 1; 1]%nat [10; 20] in
  let t := mkTensor [2; 1; 1]%nat [0; 3] in
  let self := mkRNNEncoder 1 1 1 "lstm" ["gru"; "grud"]%string 0%nat 1%nat in
  let rnn := fun (_ : nat) (v : tensor R) => Ok (v, v) in
  let linear := fun (_ : nat) (v : tensor R) => Ok v in
  fst (RNNEncoder_forward rnn rnn linear self 0%nat 1%nat [x; t])
  = Raise (ValueError
      "Invalid encoder! Encoder specified: lstm, Allowed Encoders: ['gru', 'grud']").
Proof.
  intros x t self rnn linear.
  apply (@RNNEncoder_forward_invalid_encoder nat rnn rnn linear self
           0%nat 1%nat [x; t] x t 2 1 1); try reflexivity;
    try discriminate.
  lia.
Defined.

Lemma RNNEncoder_forward_gru_input_witness :
  let x := mkTensor [2; 1; 1]%nat [10; 20] in
  let t := mkTensor [2; 1; 1]%nat [0; 3] in
  let self := mkRNNEncoder 1 1 1 "gru" ["gru"; "grud"]%string 0%nat 1%nat in
  let rnn := fun (_ : nat) (v : tensor R) => Ok (v, v) in
  let linear := fun (_ : nat) (v : tensor R) => Ok v in
  exists input,
    shape input = [2; 1; 2]%nat
    /\ get input [0; 0; 0]%nat = get x [1; 0; 0]%nat
    /\ fst (RNNEncoder_forward rnn rnn linear self 0%nat 1%nat [x; t])
       = ('(_, h0) <- rnn 0%nat input ;;
          h00 <- tselect 0 0 h0 ;;
          z0 <- linear 1%nat h00 ;;
          mu <- slice1 None (Some 1%Z) z0 ;;
          logvar <- slice1 (Some 1%Z) None z0 ;;
          Ok (mu, logvar))%result.
Proof.
  intros x t self rnn linear.
  eexists. split; [|split]; cycle 2.
  - apply (@RNNEncoder_forward_gru_input nat rnn rnn linear self
             0%nat 1%nat [x; t] x t 2 1 1); try reflexivity.
    lia.
  - reflexivity.
  - reflexivity.
Defined.


(** ** The symmetry of [mae] and [mse] *)

Lemma log_terms_sym (m a b : R) :
  mae_term m a b = mae_term m b a /\ mse_term m a b = mse_term m b a.
Proof.
  unfold mae_term, mse_term.
  destruct (flog1p a) as [u|], (flog1p b) as [v|]; cbn [olift2 option_map];
    split; try reflexivity; unfold oscale; cbn [option_map]; f_equal.
  - rewrite Rabs_minus_sym. reflexivity.
  - ring.
Qed.

(** X26.  With a number as factor, [mae] and [mse] on two well-formed
    tensors of one shape do not change when the tensors change places. *)
Theorem mae_mse_sym (dev : device) (y_true y_pred : tensor R) (m : R) :
  wf y_true -> wf y_pred -> shape y_pred = shape y_true ->
  mae dev y_true y_pred (scalar m) = mae dev y_pred y_true (scalar m)
  /\ mse dev y_true y_pred (scalar m) = mse dev y_pred y_true (scalar m).
Proof.
  intros Wt Wp Hs.
  rewrite !mae_elementwise, !mse_elementwise
    by first [assumption | symmetry; assumption].
  rewrite Hs.
  split; do 2 f_equal; apply tabulate_ext; intros idx _;
    apply log_terms_sym.
Qed.

Lemma mae_mse_sym_witness :
  mae cpu (mkTensor [2]%nat [3; 0]) (mkTensor [2]%nat [1; 1]) (scalar 1)
  = mae cpu (mkTensor [2]%nat [1; 1]) (mkTensor [2]%nat [3; 0]) (scalar 1).
Proof.
  apply (proj1 (@mae_mse_sym cpu (mkTensor [2]%nat [3; 0])
                  (mkTensor [2]%nat [1; 1]) 1 eq_refl eq_refl eq_refl)).
Defined.
